(** * A configuration language compiled to TOML: embedding of [main.py]

    [main.py] reads a configuration text, parses it with the grammar held in
    the [grammar] string, resolves constants with [ConfigTransformer] and
    prints the resulting table with [to_toml].  This file embeds these parts
    as Rocq functions and proves the properties stated about them.

    Python values that occur at run time are integers, dictionaries (whose
    iteration order is insertion order) and [None]; a dictionary is an
    association list with unique keys, the constant table of the transformer
    (only ever used for membership and lookup) is a [gmap].

    The limits of the interpreter are outside the embedding: the recursion
    limit, which the visit of a deeply nested tree exhausts, and the 4300
    digits past which the conversion of an integer to its decimal text
    raises.  The functions give the results of the runs that stay within
    them; a statement that promises a result bounds its inputs
    ([printable], [nests_within_limit]), and the others speak of the runs
    that return. *)

From Stdlib Require Import ZArith String Ascii List Lia.
From Stdlib Require Import DecimalString.
From stdpp Require Import base option list strings gmap.

Local Open Scope Z_scope.
Local Open Scope string_scope.
Local Open Scope list_scope.

(** ** Python values *)

#[warning="-register-all"]
Inductive value : Type :=
| VInt (n : Z)
| VDict (d : list (string * value))
| VNone.

Abbreviation pydict := (list (string * value)).

(** [k in d] *)
Fixpoint dict_contains (k : string) (d : pydict) : bool :=
  match d with
  | [] => false
  | (k', _) :: d' => if String.eqb k k' then true else dict_contains k d'
  end.

(** [d[k] = v]: an existing key keeps its place and takes the new value, a
    new key goes to the end. *)
Fixpoint dict_setitem (k : string) (v : value) (d : pydict) : pydict :=
  match d with
  | [] => [(k, v)]
  | (k', v') :: d' =>
      if String.eqb k k' then (k', v) :: d' else (k', v') :: dict_setitem k v d'
  end.

(** [d[k]], as an option *)
Fixpoint dict_getitem (k : string) (d : pydict) : option value :=
  match d with
  | [] => None
  | (k', v') :: d' => if String.eqb k k' then Some v' else dict_getitem k d'
  end.

Definition dict_keys (d : pydict) : list string := map fst d.

(** ** [int(s, 2)]

    Python's [int] with base 2 accepts an optional [0b] or [0B] prefix
    followed by at least one binary digit, and raises [ValueError] ([None]
    here) on other characters.  Signs, surrounding blanks and [_] separators,
    which [int] would also accept, cannot occur in a [BIN_NUMBER] token and
    are left out. *)

Definition bit_of_ascii (c : ascii) : option Z :=
  if Ascii.eqb c "0" then Some 0
  else if Ascii.eqb c "1" then Some 1
  else None.

Fixpoint int_digits (acc : Z) (s : string) : option Z :=
  match s with
  | EmptyString => Some acc
  | String c r =>
      match bit_of_ascii c with
      | Some b => int_digits (2 * acc + b) r
      | None => None
      end
  end.

Definition strip_base2_prefix (s : string) : string :=
  match s with
  | String "0" (String "b" r) => r
  | String "0" (String "B" r) => r
  | _ => s
  end.

Definition int_base2 (s : string) : option Z :=
  match strip_base2_prefix s with
  | EmptyString => None
  | ds => int_digits 0 ds
  end.

(** The regular expression of [BIN_NUMBER], [0[bB][01]+], as a recogniser. *)
Definition is_bin_digit (c : ascii) : bool :=
  Ascii.eqb c "0" || Ascii.eqb c "1".

Fixpoint all_bin_digits (s : string) : bool :=
  match s with
  | EmptyString => true
  | String c r => is_bin_digit c && all_bin_digits r
  end.

Definition matches_BIN_NUMBER (s : string) : bool :=
  match s with
  | String "0" (String m (String d r)) =>
      (Ascii.eqb m "b" || Ascii.eqb m "B") && all_bin_digits (String d r)
  | _ => false
  end.

(** The value of a digit string read in base 2, position by position: the
    digit with [n] digits to its right counts [2 ^ n] times. *)
Definition digit_value (c : ascii) : Z :=
  if Ascii.eqb c "1" then 1 else 0.

Fixpoint base2_value (s : string) : Z :=
  match s with
  | EmptyString => 0
  | String c r => digit_value c * 2 ^ Z.of_nat (String.length r) + base2_value r
  end.

(** ** The parse tree

    What [Lark(grammar, parser="lalr").parse] returns for a text of the
    language, after the inlining of [?statement] and [?value], the renaming of
    rules by their aliases and the removal of the anonymous tokens: a [start]
    node over [declare_const] and [dict_item] subtrees, whose values are
    [number], [make_dict] and [use_const] subtrees. *)

#[warning="-register-all"]
Inductive tree : Type :=
| T_number (tok : string)
| T_make_dict (entries : list (string * tree))
| T_use_const (name : string).

Inductive statement : Type :=
| S_declare_const (name : string) (v : tree)
| S_dict_item (key : string) (v : tree).

Abbreviation program := (list statement).

(** ** [ConfigTransformer] *)

Record transformer : Type := Transformer {
  constants : gmap string value;
  errors : list string
}.

(** [ConfigTransformer.__init__] *)
Definition init : transformer :=
  {| constants := ∅; errors := [] |}.

Definition errors_append (msg : string) (self : transformer) : transformer :=
  {| constants := constants self; errors := errors self ++ [msg] |}.

Definition msg_redefined (name : string) : string :=
  "Constant '" +:+ name +:+ "' redefined".

Definition msg_undefined (name : string) : string :=
  "Undefined constant '" +:+ name +:+ "'".

Definition msg_duplicate (k : string) : string :=
  "Duplicate key '" +:+ k +:+ "' in table".

(** [number(self, items)]: [int(items[0], 2)]; [None] stands for the
    exception Python raises when [items] is empty or [int] rejects the text. *)
Definition number (items : list string) : option Z :=
  match items with
  | tok :: _ => int_base2 tok
  | [] => None
  end.

(** [declare_const(self, name, value)]; it returns Python's [None], which is
    the [None] of the item type that [start] filters on. *)
Definition declare_const (name : string) (v : value) (self : transformer)
  : option (string * value) * transformer :=
  let self1 :=
    match constants self !! name with
    | Some _ => errors_append (msg_redefined name) self
    | None => self
    end in
  (None, {| constants := <[name := v]> (constants self1); errors := errors self1 |}).

(** [use_const(self, name)] *)
Definition use_const (name : string) (self : transformer) : value * transformer :=
  match constants self !! name with
  | None => (VNone, errors_append (msg_undefined name) self)
  | Some v => (v, self)
  end.

(** [dict_item(self, key, value)] *)
Definition dict_item (key : string) (v : value) : string * value := (key, v).

(** The loop of [make_dict], from the state [(result, self)] on. *)
Fixpoint make_dict_loop (items : list (string * value)) (result : pydict)
    (self : transformer) : pydict * transformer :=
  match items with
  | [] => (result, self)
  | (k, v) :: items' =>
      let self1 :=
        if dict_contains k result then errors_append (msg_duplicate k) self
        else self in
      make_dict_loop items' (dict_setitem k v result) self1
  end.

(** [make_dict(self, *items)] *)
Definition make_dict (items : list (string * value)) (self : transformer)
  : value * transformer :=
  let '(result, self1) := make_dict_loop items [] self in
  (VDict result, self1).

(** [start(self, items)]: an item is a tuple ([Some]) or [None]. *)
Fixpoint start_loop (items : list (option (string * value))) (result : pydict) : pydict :=
  match items with
  | [] => result
  | Some (k, v) :: items' => start_loop items' (dict_setitem k v result)
  | None :: items' => start_loop items' result
  end.

Definition start (items : list (option (string * value))) : pydict :=
  start_loop items [].

(** [Transformer.transform]: the tree is visited bottom-up, the children of
    a node from left to right, and the callback of a node is called on the
    results of its children.  [None] is an exception raised by a callback. *)
Fixpoint transform_value (t : tree) (self : transformer) {struct t}
  : option (value * transformer) :=
  match t with
  | T_number tok =>
      match number [tok] with
      | Some n => Some (VInt n, self)
      | None => None
      end
  | T_use_const name => Some (use_const name self)
  | T_make_dict entries =>
      match
        (fix children (es : list (string * tree)) (self : transformer)
           : option (list (string * value) * transformer) :=
           match es with
           | [] => Some ([], self)
           | (k, t') :: es' =>
               match transform_value t' self with
               | Some (v, self1) =>
                   match children es' self1 with
                   | Some (items, self2) => Some (dict_item k v :: items, self2)
                   | None => None
                   end
               | None => None
               end
           end) entries self
      with
      | Some (items, self1) => Some (make_dict items self1)
      | None => None
      end
  end.

(** The children of a [make_dict] node, as [transform_value] visits them. *)
Fixpoint transform_entries (es : list (string * tree)) (self : transformer)
  : option (list (string * value) * transformer) :=
  match es with
  | [] => Some ([], self)
  | (k, t) :: es' =>
      match transform_value t self with
      | Some (v, self1) =>
          match transform_entries es' self1 with
          | Some (items, self2) => Some (dict_item k v :: items, self2)
          | None => None
          end
      | None => None
      end
  end.

Definition transform_statement (s : statement) (self : transformer)
  : option (option (string * value) * transformer) :=
  match s with
  | S_declare_const name t =>
      match transform_value t self with
      | Some (v, self1) => Some (declare_const name v self1)
      | None => None
      end
  | S_dict_item key t =>
      match transform_value t self with
      | Some (v, self1) => Some (Some (dict_item key v), self1)
      | None => None
      end
  end.

Fixpoint transform_statements (p : program) (self : transformer)
  : option (list (option (string * value)) * transformer) :=
  match p with
  | [] => Some ([], self)
  | s :: p' =>
      match transform_statement s self with
      | Some (item, self1) =>
          match transform_statements p' self1 with
          | Some (items, self2) => Some (item :: items, self2)
          | None => None
          end
      | None => None
      end
  end.

(** [transformer.transform(tree)] on the [start] node *)
Definition transform (p : program) (self : transformer)
  : option (pydict * transformer) :=
  match transform_statements p self with
  | Some (items, self1) => Some (start items, self1)
  | None => None
  end.

(** ** [to_toml] *)

Definition newline : string := String (ascii_of_nat 10) EmptyString.

(** [s * n] *)
Fixpoint string_repeat (s : string) (n : nat) : string :=
  match n with
  | O => EmptyString
  | S n' => s +:+ string_repeat s n'
  end.

(** [str(n)] for an integer, as the f-string computes it when the integer
    is within the limit of the conversion (see [printable]) *)
Definition str_int (n : Z) : string := NilZero.string_of_int (Z.to_int n).

(** What one turn of the loop of [to_toml] appends to [lines] for the entry
    [(key, v)]; the nested table is rendered by the loop of [to_toml] one
    level deeper.  [None] prints as Python prints it. *)
Fixpoint entry_lines (indent : nat) (key : string) (v : value) {struct v}
  : list string :=
  let pad := string_repeat "  " indent in
  match v with
  | VDict d =>
      [ pad +:+ "[" +:+ key +:+ "]";
        String.concat newline
          (flat_map (fun '(k, v') => entry_lines (S indent) k v') d) ]
  | VInt n => [ pad +:+ key +:+ " = " +:+ str_int n ]
  | VNone => [ pad +:+ key +:+ " = None" ]
  end.

(** [lines] at the end of the loop *)
Definition toml_lines (data : pydict) (indent : nat) : list string :=
  flat_map (fun '(k, v) => entry_lines indent k v) data.

(** [to_toml(data, indent)] *)
Definition to_toml (data : pydict) (indent : nat) : string :=
  String.concat newline (toml_lines data indent).

(** ** The grammar: terminals

    The text is cut into the terminals of [grammar].  Blanks ([common.WS]) and
    [COMMENT] are ignored.  The keyword ["table"] has the shape of an [IDENT];
    Lark's contextual lexer offers it only where a value is expected and
    [IDENT] only elsewhere, so here it is read as an [IDENT] and recognised as
    the keyword where a value starts.  The two anonymous terminals [".("] and
    [")."] are [CONST_OPEN] and [CONST_CLOSE]. *)

Inductive token : Type :=
| IDENT (v : string)
| BIN_NUMBER (v : string)
| COLON | SEMICOLON | EQUAL | COMMA
| LPAR | RPAR | LSQB | RSQB
| CONST_OPEN | CONST_CLOSE.

Definition is_ws (c : ascii) : bool :=
  let n := nat_of_ascii c in
  Nat.eqb n 32 || Nat.eqb n 9 || Nat.eqb n 12 || Nat.eqb n 13 || Nat.eqb n 10.

(** [[a-z]] *)
Definition is_lower (c : ascii) : bool :=
  let n := nat_of_ascii c in
  Nat.leb 97 n && Nat.leb n 122.

(** The longest prefix of characters that satisfy [p]. *)
Fixpoint take_while (p : ascii -> bool) (s : string) : string :=
  match s with
  | EmptyString => EmptyString
  | String c r => if p c then String c (take_while p r) else EmptyString
  end.

(** The length of the shortest prefix that ends in ["]]"], if there is one:
    the match of [[\s\S]*?\]\]]. *)
Fixpoint comment_close (s : string) : option nat :=
  match s with
  | EmptyString => None
  | String c r =>
      match r with
      | String c' _ =>
          if Ascii.eqb c "]" && Ascii.eqb c' "]" then Some 2%nat
          else option_map S (comment_close r)
      | EmptyString => None
      end
  end.

Inductive lexeme : Type :=
| Emit (t : token) (len : nat)
| Ignore (len : nat)
| Unexpected.

(** The terminal that matches at the head of [s], with its length. *)
Definition lexeme_at (s : string) : lexeme :=
  match s with
  | EmptyString => Unexpected
  | String c r =>
      if is_ws c then Ignore 1
      else if is_lower c then
        let w := take_while is_lower s in Emit (IDENT w) (String.length w)
      else if Ascii.eqb c "0" then
        match r with
        | String m r' =>
            if Ascii.eqb m "b" || Ascii.eqb m "B" then
              match take_while is_bin_digit r' with
              | EmptyString => Unexpected
              | ds => Emit (BIN_NUMBER (String c (String m ds))) (2 + String.length ds)
              end
            else Unexpected
        | EmptyString => Unexpected
        end
      else if Ascii.eqb c ":" then Emit COLON 1
      else if Ascii.eqb c ";" then Emit SEMICOLON 1
      else if Ascii.eqb c "=" then Emit EQUAL 1
      else if Ascii.eqb c "," then Emit COMMA 1
      else if Ascii.eqb c "(" then Emit LPAR 1
      else if Ascii.eqb c "[" then Emit LSQB 1
      else if Ascii.eqb c "]" then Emit RSQB 1
      else if Ascii.eqb c ")" then
        match r with
        | String "." _ => Emit CONST_CLOSE 2
        | _ => Emit RPAR 1
        end
      else if Ascii.eqb c "." then
        match r with
        | String "(" _ => Emit CONST_OPEN 2
        | _ => Unexpected
        end
      else if Ascii.eqb c "-" then
        match r with
        | String "-" (String "[" (String "[" body)) =>
            match comment_close body with
            | Some n => Ignore (4 + n)
            | None => Unexpected
            end
        | _ => Unexpected
        end
      else Unexpected
  end.

(** The terminals of [s], after [skip] characters that belong to the
    terminal matched before; [None] when no terminal matches somewhere. *)
Fixpoint lex_from (skip : nat) (s : string) : option (list token) :=
  match s with
  | EmptyString => Some []
  | String _ r =>
      match skip with
      | S k => lex_from k r
      | O =>
          match lexeme_at s with
          | Emit t len =>
              match lex_from (Nat.pred len) r with
              | Some ts => Some (t :: ts)
              | None => None
              end
          | Ignore len => lex_from (Nat.pred len) r
          | Unexpected => None
          end
      end
  end.

Definition lex (s : string) : option (list token) := lex_from 0 s.

(** ** The grammar: rules

    A recogniser of the rules of [grammar] by recursive descent; the grammar
    needs one terminal of lookahead and has no ambiguity, so the tree is the
    one the LALR parser builds.  [fuel] bounds the depth of the descent; the
    number of terminals is enough, each call consuming at least one. *)

Fixpoint parse_value (fuel : nat) (ts : list token) {struct fuel}
  : option (tree * list token) :=
  match fuel with
  | O => None
  | S fuel' =>
      match ts with
      | BIN_NUMBER v :: ts1 => Some (T_number v, ts1)
      | CONST_OPEN :: IDENT name :: CONST_CLOSE :: ts1 => Some (T_use_const name, ts1)
      | IDENT kw :: LPAR :: LSQB :: ts1 =>
          if String.eqb kw "table" then
            match
              (fix entries (n : nat) (ts : list token) {struct n}
                 : option (list (string * tree) * list token) :=
                 match n with
                 | O => None
                 | S n' =>
                     match ts with
                     | IDENT key :: EQUAL :: ts1 =>
                         match parse_value fuel' ts1 with
                         | Some (v, ts2) =>
                             let ts3 := match ts2 with COMMA :: r => r | _ => ts2 end in
                             match entries n' ts3 with
                             | Some (es, ts4) => Some ((key, v) :: es, ts4)
                             | None => None
                             end
                         | None => None
                         end
                     | _ => Some ([], ts)
                     end
                 end) fuel' ts1
            with
            | Some (es, RSQB :: RPAR :: ts2) => Some (T_make_dict es, ts2)
            | _ => None
            end
          else None
      | _ => None
      end
  end.

(** The loop over [dict_entry*] inside [parse_value], whose values are
    parsed with the fuel [fuel']. *)
Definition parse_entries (fuel' : nat)
  : nat -> list token -> option (list (string * tree) * list token) :=
  fix entries (n : nat) (ts : list token) {struct n}
    : option (list (string * tree) * list token) :=
    match n with
    | O => None
    | S n' =>
        match ts with
        | IDENT key :: EQUAL :: ts1 =>
            match parse_value fuel' ts1 with
            | Some (v, ts2) =>
                let ts3 := match ts2 with COMMA :: r => r | _ => ts2 end in
                match entries n' ts3 with
                | Some (es, ts4) => Some ((key, v) :: es, ts4)
                | None => None
                end
            | None => None
            end
        | _ => Some ([], ts)
        end
    end.

Fixpoint parse_statements (fuel : nat) (ts : list token) {struct fuel}
  : option program :=
  match fuel with
  | O => None
  | S fuel' =>
      match ts with
      | [] => Some []
      | IDENT name :: COLON :: ts1 =>
          match parse_value fuel' ts1 with
          | Some (v, SEMICOLON :: ts2) =>
              match parse_statements fuel' ts2 with
              | Some p => Some (S_declare_const name v :: p)
              | None => None
              end
          | _ => None
          end
      | IDENT key :: EQUAL :: ts1 =>
          match parse_value fuel' ts1 with
          | Some (v, ts2) =>
              let ts3 := match ts2 with COMMA :: r => r | _ => ts2 end in
              match parse_statements fuel' ts3 with
              | Some p => Some (S_dict_item key v :: p)
              | None => None
              end
          | None => None
          end
      | _ => None
      end
  end.

(** [parser.parse(text)]; [None] is [UnexpectedInput]. *)
Definition parse (text : string) : option program :=
  match lex text with
  | Some ts => parse_statements (S (length ts)) ts
  | None => None
  end.

(** ** [main]

    [main] from [parser = Lark(...)] on, for the text read from the file.
    What the process prints on standard error is a list of lines; the line of
    a syntax error, whose description is the text of Lark's exception, is a
    line of its own kind.  [None] is an exception that [main] does not catch. *)

Inductive stderr_line : Type :=
| ErrLine (s : string)
| SyntaxErrorLine.

Record process : Type := Process {
  exit_code : Z;
  stdout : string;
  stderr : list stderr_line
}.

Definition main (text : string) : option process :=
  match parse text with
  | None => Some {| exit_code := 1; stdout := ""; stderr := [SyntaxErrorLine] |}
  | Some tree =>
      match transform tree init with
      | None => None
      | Some (result, self) =>
          match errors self with
          | [] => Some {| exit_code := 0;
                          stdout := to_toml result 0 +:+ newline;
                          stderr := [] |}
          | errs => Some {| exit_code := 1;
                            stdout := "";
                            stderr := map (fun err => ErrLine ("Error: " +:+ err)) errs |}
          end
      end
  end.

(** * Vocabulary of the statements *)

(** The digits of a literal: the text after its two-character prefix. *)
Definition literal_digits (tok : string) : string :=
  match tok with
  | String _ (String _ ds) => ds
  | _ => EmptyString
  end.

(** The diagnostics that the visit of a value can append. *)
Definition value_diagnostic (msg : string) : Prop :=
  (exists name, msg = msg_undefined name) \/ (exists k, msg = msg_duplicate k).

(** [self1] has the constants of [self] and its diagnostics, followed by
    [added], which are diagnostics of values. *)
Definition extends (self self1 : transformer) (added : list string) : Prop :=
  constants self1 = constants self /\
  errors self1 = errors self ++ added /\
  Forall value_diagnostic added.

Definition statement_value (s : statement) : tree :=
  match s with
  | S_declare_const _ t => t
  | S_dict_item _ t => t
  end.

(** [s] is a declaration of the constant [name]. *)
Definition declares (name : string) (s : statement) : bool :=
  match s with
  | S_declare_const n _ => String.eqb n name
  | S_dict_item _ _ => false
  end.

Definition declared_in (name : string) (p : program) : bool :=
  existsb (declares name) p.

(** [visits t self u self_u]: when [t] is transformed from the state [self],
    its subtree [u] is transformed from the state [self_u], which is the
    state left by the entries to the left of [u] at each level. *)
Inductive visits : tree -> transformer -> tree -> transformer -> Prop :=
| visits_root t self : visits t self t self
| visits_entry es1 k t es2 self items self1 u self_u :
    transform_entries es1 self = Some (items, self1) ->
    visits t self1 u self_u ->
    visits (T_make_dict (es1 ++ (k, t) :: es2)) self u self_u.

(** The keys of [ks] without their repeats, each at the place of its first
    occurrence. *)
Fixpoint first_occurrences (ks : list string) : list string :=
  match ks with
  | [] => []
  | k :: r => k :: List.filter (fun x => negb (String.eqb x k)) (first_occurrences r)
  end.

(** The value of the last item of [items] under the key [k]. *)
Fixpoint last_value (k : string) (items : list (string * value)) : option value :=
  match items with
  | [] => None
  | (k', v) :: r =>
      match last_value k r with
      | Some v' => Some v'
      | None => if String.eqb k k' then Some v else None
      end
  end.

(** [d[k] = v] for each item [(k, v)], in order. *)
Definition dict_update (items : list (string * value)) (d : pydict) : pydict :=
  fold_left (fun d kv => dict_setitem (fst kv) (snd kv) d) items d.

(** The tuples among the items that [start] receives. *)
Fixpoint tuples (items : list (option (string * value))) : list (string * value) :=
  match items with
  | [] => []
  | Some kv :: r => kv :: tuples r
  | None :: r => tuples r
  end.

(** The keys of a value, at every nesting level. *)
Fixpoint value_keys (v : value) : list string :=
  match v with
  | VDict d =>
      (fix entries (d : pydict) : list string :=
         match d with
         | [] => []
         | (k, v') :: d' => k :: value_keys v' ++ entries d'
         end) d
  | VInt _ => []
  | VNone => []
  end.

Fixpoint dict_all_keys (d : pydict) : list string :=
  match d with
  | [] => []
  | (k, v) :: d' => k :: value_keys v ++ dict_all_keys d'
  end.

(** The keys of the [dict_item] subtrees of a tree, at every nesting level. *)
Fixpoint tree_keys (t : tree) : list string :=
  match t with
  | T_make_dict es =>
      (fix entries (es : list (string * tree)) : list string :=
         match es with
         | [] => []
         | (k, t') :: es' => k :: tree_keys t' ++ entries es'
         end) es
  | T_number _ => []
  | T_use_const _ => []
  end.

Fixpoint entries_keys (es : list (string * tree)) : list string :=
  match es with
  | [] => []
  | (k, t) :: es' => k :: tree_keys t ++ entries_keys es'
  end.

(** The keys of the [=]-form entries of a statement: its own key, if it is
    an entry, and those inside its value. *)
Definition statement_keys (s : statement) : list string :=
  match s with
  | S_declare_const _ t => tree_keys t
  | S_dict_item k t => k :: tree_keys t
  end.

Definition program_keys (p : program) : list string :=
  flat_map statement_keys p.

(** The keys of the top-level [=]-form statements, in document order. *)
Fixpoint top_level_keys (p : program) : list string :=
  match p with
  | [] => []
  | S_dict_item k _ :: p' => k :: top_level_keys p'
  | S_declare_const _ _ :: p' => top_level_keys p'
  end.

(** Every key inside a value of the constant table [c] is in [K]. *)
Definition table_keys_within (K : list string) (c : gmap string value) : Prop :=
  forall n v, c !! n = Some v -> forall k, In k (value_keys v) -> In k K.

(** No [None] in a value, at any nesting level. *)
Fixpoint unresolved_free (v : value) : bool :=
  match v with
  | VDict d => forallb (fun '(_, v') => unresolved_free v') d
  | VInt _ => true
  | VNone => false
  end.

(** The text of a table read off the rules of the serializer: the entries
    in order, an integer as [key = n], a table as the header [[key]] under
    [indent] pads and then its own text one level deeper, with a newline
    between two entries and between a header and what follows it, and none
    at the end.  With [pad_integers] the line of an integer is under
    [indent] pads as well; without, it starts at the margin. *)
Definition joined_text (entry : string -> value -> string) : pydict -> string :=
  fix entries (d : pydict) : string :=
    match d with
    | [] => ""
    | (k, v) :: d' =>
        match d' with
        | [] => entry k v
        | _ :: _ => entry k v +:+ newline +:+ entries d'
        end
    end.

Fixpoint entry_text (pad_integers : bool) (indent : nat) (key : string)
    (v : value) {struct v} : string :=
  match v with
  | VInt n =>
      (if pad_integers then string_repeat "  " indent else "")
      +:+ key +:+ " = " +:+ str_int n
  | VDict d =>
      string_repeat "  " indent +:+ "[" +:+ key +:+ "]" +:+ newline
      +:+ joined_text (entry_text pad_integers (S indent)) d
  | VNone => ""
  end.

Definition table_text (pad_integers : bool) (indent : nat) (d : pydict) : string :=
  joined_text (entry_text pad_integers indent) d.

(** Every [number] token of a tree matches [BIN_NUMBER]. *)
Fixpoint wf_tree (t : tree) : bool :=
  match t with
  | T_number tok => matches_BIN_NUMBER tok
  | T_make_dict es => forallb (fun '(_, t') => wf_tree t') es
  | T_use_const _ => true
  end.

Definition wf_program (p : program) : bool :=
  forallb (fun s => wf_tree (statement_value s)) p.

Definition token_ok (t : token) : bool :=
  match t with
  | BIN_NUMBER v => matches_BIN_NUMBER v
  | _ => true
  end.

(** No value of the constant table [c] holds a [None]. *)
Definition table_resolved (c : gmap string value) : Prop :=
  forall n v, c !! n = Some v -> unresolved_free v = true.

(** ** Vocabulary of the further properties *)

(** No key occurs twice in [ks]. *)
Fixpoint distinct (ks : list string) : bool :=
  match ks with
  | [] => true
  | k :: r => negb (existsb (String.eqb k) r) && distinct r
  end.

(** The keys of [ks] that repeat a key of [seen] or an earlier key of [ks],
    in order. *)
Fixpoint repeated_keys (seen ks : list string) : list string :=
  match ks with
  | [] => []
  | k :: r =>
      if existsb (String.eqb k) seen then k :: repeated_keys seen r
      else repeated_keys (seen ++ [k]) r
  end.

(** The keys of every table of a value are distinct. *)
Fixpoint keys_unique (v : value) : bool :=
  match v with
  | VDict d => distinct (map fst d) && forallb (fun '(_, v') => keys_unique v') d
  | VInt _ => true
  | VNone => true
  end.

(** Every value of the constant table [c] has distinct keys in its tables. *)
Definition table_keys_unique (c : gmap string value) : Prop :=
  forall n v, c !! n = Some v -> keys_unique v = true.

(** The number of declarations of [name] in a program. *)
Definition declaration_count (name : string) (p : program) : nat :=
  length (List.filter (declares name) p).

(** The number of references to [name] in a tree. *)
Fixpoint count_refs (name : string) (t : tree) : nat :=
  match t with
  | T_use_const n => if String.eqb n name then 1 else 0
  | T_number _ => 0
  | T_make_dict es => list_sum (map (fun '(_, t') => count_refs name t') es)
  end.

(** The number of references to [name] that come before the end of its
    first declaration: those of the statements before it and those of the
    value it declares. *)
Fixpoint forward_refs (name : string) (p : program) : nat :=
  match p with
  | [] => 0
  | s :: p' =>
      count_refs name (statement_value s)
      + if declares name s then 0 else forward_refs name p'
  end.

(** A value none of whose references is to a name outside [declared] and
    none of whose tables repeats a key. *)
Fixpoint value_clean (declared : list string) (t : tree) : bool :=
  match t with
  | T_number _ => true
  | T_use_const n => existsb (String.eqb n) declared
  | T_make_dict es =>
      distinct (map fst es)
      && forallb (fun '(_, t') => value_clean declared t') es
  end.

(** A program whose values are clean for the names declared before them
    and which declares no name twice. *)
Fixpoint program_clean (declared : list string) (p : program) : bool :=
  match p with
  | [] => true
  | S_declare_const n t :: p' =>
      value_clean declared t
      && negb (existsb (String.eqb n) declared)
      && program_clean (n :: declared) p'
  | S_dict_item _ t :: p' =>
      value_clean declared t && program_clean declared p'
  end.

(** A token sequence without its commas. *)
Fixpoint remove_commas (ts : list token) : list token :=
  match ts with
  | [] => []
  | COMMA :: r => remove_commas r
  | t :: r => t :: remove_commas r
  end.

(** No ["]"] in a text. *)
Fixpoint no_rsqb (s : string) : bool :=
  match s with
  | EmptyString => true
  | String c r => negb (Ascii.eqb c "]") && no_rsqb r
  end.

(** Only blanks in a text. *)
Fixpoint all_ws (s : string) : bool :=
  match s with
  | EmptyString => true
  | String c r => is_ws c && all_ws r
  end.

(** Only lowercase letters in a text. *)
Fixpoint all_lower (s : string) : bool :=
  match s with
  | EmptyString => true
  | String c r => is_lower c && all_lower r
  end.

(** ** Integers within the limit of the decimal conversion

    Python converts an integer to its decimal text only if the text has at
    most [sys.int_info.default_max_str_digits] digits, 4300, and raises
    [ValueError] beyond. *)
Definition int_max_str_digits : nat := 4300.

(** The number of decimal digits of an integer, its sign apart. *)
Definition decimal_digits (n : Z) : nat :=
  String.length (NilZero.string_of_uint (N.to_uint (Z.abs_N n))).

Definition printable (n : Z) : bool :=
  Nat.leb (decimal_digits n) int_max_str_digits.

(** Every integer of a value is printable. *)
Fixpoint ints_printable (v : value) : bool :=
  match v with
  | VInt n => printable n
  | VDict d => forallb (fun '(_, v') => ints_printable v') d
  | VNone => true
  end.

(** ** Tables within the recursion limit

    [to_toml] calls itself once per nesting level, and the interpreter
    raises [RecursionError] past its recursion limit, 1000 frames by
    default, the frames of the callers included.  [max_nesting] is a depth
    that leaves them room. *)
Fixpoint nesting_depth (v : value) : nat :=
  match v with
  | VDict d => S (list_max (map (fun '(_, v') => nesting_depth v') d))
  | VInt _ => 0
  | VNone => 0
  end.

Definition max_nesting : nat := 500.

Definition nests_within_limit (v : value) : bool :=
  Nat.leb (nesting_depth v) max_nesting.

(** * Properties *)

(** ** Binary literals *)

Lemma bit_of_ascii_digit c :
  is_bin_digit c = true -> bit_of_ascii c = Some (digit_value c).
Proof.
  unfold is_bin_digit, bit_of_ascii, digit_value.
  destruct (Ascii.eqb c "0") eqn:E0.
  - apply Ascii.eqb_eq in E0. subst c. reflexivity.
  - destruct (Ascii.eqb c "1"); [reflexivity | discriminate].
Qed.

(** The accumulator loop of [int] computes the positional value. *)
Lemma int_digits_positional s : forall acc,
  all_bin_digits s = true ->
  int_digits acc s = Some (acc * 2 ^ Z.of_nat (String.length s) + base2_value s).
Proof.
  induction s as [|c r IH]; intros acc H; simpl in *.
  - f_equal. lia.
  - apply andb_prop in H as [Hc Hr].
    rewrite (bit_of_ascii_digit c Hc), (IH _ Hr). f_equal.
    rewrite Nat2Z.inj_succ, Z.pow_succ_r by lia. ring.
Qed.

Lemma base2_value_bounds s :
  0 <= base2_value s < 2 ^ Z.of_nat (String.length s).
Proof.
  induction s as [|c r IH]; simpl; [lia|].
  rewrite Nat2Z.inj_succ, Z.pow_succ_r by lia.
  unfold digit_value. destruct (Ascii.eqb c "1"); lia.
Qed.

Lemma matches_BIN_NUMBER_inv tok :
  matches_BIN_NUMBER tok = true ->
  exists m d r,
    tok = String "0" (String m (String d r)) /\
    (Ascii.eqb m "b" || Ascii.eqb m "B") = true /\
    all_bin_digits (String d r) = true.
Proof.
  destruct tok as [|z [|m [|d r]]]; [discriminate| | |];
    try (destruct z as [[] [] [] [] [] [] [] []]; discriminate).
  destruct z as [[] [] [] [] [] [] [] []]; try discriminate.
  unfold matches_BIN_NUMBER. intros H. apply andb_prop in H as [Hm Hd]. eauto 8.
Qed.

Lemma int_base2_literal tok :
  matches_BIN_NUMBER tok = true ->
  int_base2 tok = Some (base2_value (literal_digits tok)).
Proof.
  intros H. destruct (matches_BIN_NUMBER_inv tok H) as (m & d & r & -> & Hm & Hd).
  assert (Hs : strip_base2_prefix (String "0" (String m (String d r))) = String d r).
  { apply orb_prop in Hm. destruct Hm as [Hm|Hm]; apply Ascii.eqb_eq in Hm; subst m; reflexivity. }
  unfold int_base2. rewrite Hs. cbn [literal_digits].
  rewrite (int_digits_positional _ 0 Hd). f_equal; lia.
Qed.

(** Lexing a literal on its own. *)
Lemma take_while_bin_digits s :
  all_bin_digits s = true -> take_while is_bin_digit s = s.
Proof.
  induction s as [|c r IH]; simpl; [reflexivity|].
  intros H. apply andb_prop in H as [Hc Hr]. rewrite Hc, IH; auto.
Qed.

Lemma lex_from_skip_all s : lex_from (String.length s) s = Some [].
Proof. induction s; simpl; auto. Qed.

Lemma lex_literal tok :
  matches_BIN_NUMBER tok = true -> lex tok = Some [BIN_NUMBER tok].
Proof.
  intros H. destruct (matches_BIN_NUMBER_inv tok H) as (m & d & r & -> & Hm & Hd).
  unfold lex. cbn [lex_from lexeme_at].
  change (is_ws "0") with false. change (is_lower "0") with false.
  change (Ascii.eqb "0" "0") with true. cbn iota. rewrite Hm.
  pose proof (take_while_bin_digits (String d r) Hd) as Ht.
  rewrite Ht. cbn [Nat.pred Nat.add String.length lex_from].
  rewrite lex_from_skip_all. reflexivity.
Qed.

(** C5. A text that matches [BIN_NUMBER] ([0b] or [0B], then one or more
    binary digits) is one token of the lexer, and [number] resolves it to the
    integer whose value is the exact base-2 value of the digits: the sum of
    the digits weighted by the powers of two of their positions, in
    unbounded integers, so that a literal of any length keeps its value (it
    lies between 0 and two to the number of digits).  The constant table and
    the diagnostics are untouched; [0b101] resolves to 5. *)
Theorem number_resolves_binary_literal (tok : string) :
  matches_BIN_NUMBER tok = true ->
  lex tok = Some [BIN_NUMBER tok] /\
  number [tok] = Some (base2_value (literal_digits tok)) /\
  (forall self, transform_value (T_number tok) self
                = Some (VInt (base2_value (literal_digits tok)), self)) /\
  0 <= base2_value (literal_digits tok)
    < 2 ^ Z.of_nat (String.length (literal_digits tok)) /\
  number ["0b101"] = Some 5.
Proof.
  intros H. pose proof (int_base2_literal tok H) as Hn.
  repeat split.
  - apply lex_literal, H.
  - exact Hn.
  - intros self. cbn [transform_value number]. rewrite Hn. reflexivity.
  - apply base2_value_bounds.
  - apply base2_value_bounds.
Qed.

Lemma number_resolves_binary_literal_witness :
  matches_BIN_NUMBER "0B1101" = true /\
  number ["0B1101"] = Some 13.
Proof.
  split; [reflexivity|].
  exact (proj1 (proj2 (number_resolves_binary_literal "0B1101" eq_refl))).
Defined.

(** A one followed by [n] zeros resolves to [2 ^ n], whatever [n]: no width
    at which the value would wrap. *)
Lemma number_power_of_two (n : nat) :
  number ["0b1" +:+ string_repeat "0" n] = Some (2 ^ Z.of_nat n).
Proof.
  assert (Hall : forall k, all_bin_digits (string_repeat "0" k) = true).
  { induction k; simpl; auto. }
  assert (Hlen : forall k, String.length (string_repeat "0" k) = k).
  { induction k; simpl; auto. }
  assert (Hval : forall k, base2_value (string_repeat "0" k) = 0).
  { induction k; simpl; auto. }
  cbn [number]. unfold int_base2. cbn [String.append strip_base2_prefix].
  change (int_digits 0 (String "1" (string_repeat "0" n)) = Some (2 ^ Z.of_nat n)).
  rewrite int_digits_positional by (simpl; apply Hall).
  cbn [base2_value String.length]. rewrite Hlen, Hval.
  f_equal. unfold digit_value. simpl Ascii.eqb. cbn iota.
  rewrite Nat2Z.inj_succ, Z.pow_succ_r by lia. lia.
Qed.

(** ** The transformer: what a visit changes *)

(** Induction on trees, with the hypothesis for every entry of a table. *)
Lemma tree_ind_entries (P : tree -> Prop) :
  (forall tok, P (T_number tok)) ->
  (forall es, Forall (fun e => P (snd e)) es -> P (T_make_dict es)) ->
  (forall name, P (T_use_const name)) ->
  forall t, P t.
Proof.
  intros Hn Hd Hu. fix IH 1. intros [tok|es|name].
  - apply Hn.
  - apply Hd. induction es as [|[k t] es IHes]; constructor.
    + apply IH.
    + apply IHes.
  - apply Hu.
Qed.

Lemma transform_value_make_dict es self :
  transform_value (T_make_dict es) self =
  match transform_entries es self with
  | Some (items, self1) => Some (make_dict items self1)
  | None => None
  end.
Proof. reflexivity. Qed.

Lemma extends_refl self : extends self self [].
Proof.
  split; [reflexivity | split; [symmetry; apply app_nil_r | constructor]].
Qed.

Lemma extends_trans self self1 self2 a b :
  extends self self1 a -> extends self1 self2 b -> extends self self2 (a ++ b).
Proof.
  intros (C1 & E1 & F1) (C2 & E2 & F2). split; [congruence|]. split.
  - rewrite E2, E1, app_assoc. reflexivity.
  - apply Forall_app. split; assumption.
Qed.

Lemma errors_append_extends msg self :
  value_diagnostic msg -> extends self (errors_append msg self) [msg].
Proof.
  intros H. split; [reflexivity | split; [reflexivity|]].
  constructor; [exact H | constructor].
Qed.

Lemma use_const_extends name self :
  exists added, extends self (snd (use_const name self)) added.
Proof.
  unfold use_const. destruct (constants self !! name).
  - exists []. apply extends_refl.
  - exists [msg_undefined name]. apply errors_append_extends. left. eauto.
Qed.

Lemma make_dict_loop_extends items : forall result self,
  exists added, extends self (snd (make_dict_loop items result self)) added.
Proof.
  induction items as [|[k v] items IH]; intros result self; cbn [make_dict_loop].
  - exists []. apply extends_refl.
  - destruct (dict_contains k result).
    + destruct (IH (dict_setitem k v result) (errors_append (msg_duplicate k) self))
        as [b Hb].
      eexists. eapply extends_trans; [apply errors_append_extends | exact Hb].
      right. eauto.
    + apply IH.
Qed.

Lemma make_dict_extends items self :
  exists added, extends self (snd (make_dict items self)) added.
Proof.
  unfold make_dict.
  destruct (make_dict_loop_extends items [] self) as [a Ha].
  destruct (make_dict_loop items [] self) as [result self1]. eauto.
Qed.

(** Visiting a value leaves the constant table as it is and only appends
    diagnostics. *)
Lemma transform_value_extends t : forall self v self1,
  transform_value t self = Some (v, self1) ->
  exists added, extends self self1 added.
Proof.
  induction t as [tok|es IH|name] using tree_ind_entries; intros self v self1 H.
  - cbn [transform_value] in H. destruct (number [tok]); inversion H; subst.
    exists []. apply extends_refl.
  - rewrite transform_value_make_dict in H.
    destruct (transform_entries es self) as [[items self2]|] eqn:E; [|discriminate].
    assert (Hes : exists a, extends self self2 a).
    { clear H. revert self items self2 E.
      induction IH as [|[k t] es Ht _ IHes]; intros self items self2 E;
        cbn [transform_entries] in E.
      - inversion E; subst. exists []. apply extends_refl.
      - destruct (transform_value t self) as [[v' s1]|] eqn:Ev; [|discriminate].
        destruct (transform_entries es s1) as [[items' s2]|] eqn:Ee; [|discriminate].
        inversion E; subst.
        destruct (Ht _ _ _ Ev) as [a Ha]. destruct (IHes _ _ _ Ee) as [b Hb].
        exists (a ++ b). eapply extends_trans; eauto. }
    destruct Hes as [a Ha]. destruct (make_dict_extends items self2) as [b Hb].
    inversion H as [Hm]. rewrite Hm in Hb. cbn [snd] in Hb.
    exists (a ++ b). eapply extends_trans; eauto.
  - cbn [transform_value] in H. inversion H as [Hu].
    destruct (use_const_extends name self) as [a Ha].
    rewrite Hu in Ha. eauto.
Qed.

Lemma transform_entries_extends es : forall self items self1,
  transform_entries es self = Some (items, self1) ->
  exists added, extends self self1 added.
Proof.
  induction es as [|[k t] es IH]; intros self items self1 E;
    cbn [transform_entries] in E.
  - inversion E; subst. exists []. apply extends_refl.
  - destruct (transform_value t self) as [[v' s1]|] eqn:Ev; [|discriminate].
    destruct (transform_entries es s1) as [[items' s2]|] eqn:Ee; [|discriminate].
    inversion E; subst.
    destruct (transform_value_extends _ _ _ _ Ev) as [a Ha].
    destruct (IH _ _ _ Ee) as [b Hb].
    exists (a ++ b). eapply extends_trans; eauto.
Qed.

Lemma transform_entries_app es1 es2 self :
  transform_entries (es1 ++ es2) self =
  match transform_entries es1 self with
  | Some (items1, self1) =>
      match transform_entries es2 self1 with
      | Some (items2, self2) => Some (items1 ++ items2, self2)
      | None => None
      end
  | None => None
  end.
Proof.
  revert self. induction es1 as [|[k t] es1 IH]; intros self; cbn [app transform_entries].
  - destruct (transform_entries es2 self) as [[? ?]|]; reflexivity.
  - destruct (transform_value t self) as [[v s1]|]; [|reflexivity].
    rewrite IH. destruct (transform_entries es1 s1) as [[i1 s2]|]; [|reflexivity].
    destruct (transform_entries es2 s2) as [[i2 s3]|]; reflexivity.
Qed.

Lemma visits_constants t self u self_u :
  visits t self u self_u -> constants self_u = constants self.
Proof.
  induction 1 as [|es1 k t es2 self items self1 u self_u He _ IH]; [reflexivity|].
  destruct (transform_entries_extends _ _ _ _ He) as [a [Hc _]]. congruence.
Qed.

(** A subtree that is visited is transformed, and what it adds to the
    diagnostics stays in those of the whole tree. *)
Lemma visits_transformed t self u self_u :
  visits t self u self_u ->
  forall v self1, transform_value t self = Some (v, self1) ->
  exists vu su rest,
    transform_value u self_u = Some (vu, su) /\
    errors self1 = errors su ++ rest.
Proof.
  induction 1 as [t self|es1 k t es2 self items self1 u self_u He _ IH];
    intros v selfE H.
  - exists v, selfE, []. split; [exact H | symmetry; apply app_nil_r].
  - rewrite transform_value_make_dict, transform_entries_app, He in H.
    cbn [transform_entries] in H.
    destruct (transform_value t self1) as [[vt st]|] eqn:Et; [|discriminate].
    destruct (transform_entries es2 st) as [[i2 s2]|] eqn:E2; [|discriminate].
    destruct (IH _ _ eq_refl) as (vu & su & rest & Hu & Hrest).
    destruct (transform_entries_extends _ _ _ _ E2) as [a (_ & Ha & _)].
    destruct (make_dict_extends (items ++ dict_item k vt :: i2) s2) as [b (_ & Hb & _)].
    inversion H as [Hm]. rewrite Hm in Hb. cbn [snd] in Hb.
    exists vu, su, (rest ++ a ++ b). split; [exact Hu|].
    rewrite Hb, Ha, Hrest, <- !app_assoc. reflexivity.
Qed.

(** ** Statements *)

Lemma transform_statements_app p1 p2 self :
  transform_statements (p1 ++ p2) self =
  match transform_statements p1 self with
  | Some (items1, self1) =>
      match transform_statements p2 self1 with
      | Some (items2, self2) => Some (items1 ++ items2, self2)
      | None => None
      end
  | None => None
  end.
Proof.
  revert self. induction p1 as [|s p1 IH]; intros self; cbn [app transform_statements].
  - destruct (transform_statements p2 self) as [[? ?]|]; reflexivity.
  - destruct (transform_statement s self) as [[it s1]|]; [|reflexivity].
    rewrite IH. destruct (transform_statements p1 s1) as [[i1 s2]|]; [|reflexivity].
    destruct (transform_statements p2 s2) as [[i2 s3]|]; reflexivity.
Qed.

Lemma declare_const_errors name v self :
  exists added,
    errors (snd (declare_const name v self)) = errors self ++ added.
Proof.
  unfold declare_const. cbn [snd errors].
  destruct (constants self !! name).
  - exists [msg_redefined name]. reflexivity.
  - exists []. symmetry. apply app_nil_r.
Qed.

Lemma declare_const_lookup name v self n :
  constants (snd (declare_const name v self)) !! n =
  if String.eqb name n then Some v else constants self !! n.
Proof.
  unfold declare_const. cbn [snd constants].
  assert (Hc : forall s1 : transformer, constants s1 = constants self ->
            <[name:=v]> (constants s1) !! n
            = if String.eqb name n then Some v else constants self !! n).
  { intros s1 ->. destruct (String.eqb name n) eqn:E.
    - apply String.eqb_eq in E. subst. apply lookup_insert_eq.
    - apply String.eqb_neq in E. apply lookup_insert_ne. exact E. }
  destruct (constants self !! name); apply Hc; reflexivity.
Qed.

(** A statement only appends diagnostics. *)
Lemma transform_statement_errors s self item self1 :
  transform_statement s self = Some (item, self1) ->
  exists added, errors self1 = errors self ++ added.
Proof.
  destruct s as [name t|key t]; cbn [transform_statement];
    destruct (transform_value t self) as [[v s1]|] eqn:Ev; try discriminate;
    destruct (transform_value_extends _ _ _ _ Ev) as [a (_ & Ha & _)]; intros H.
  - destruct (declare_const_errors name v s1) as [b Hb].
    assert (Hd : declare_const name v s1 = (item, self1)) by congruence.
    rewrite Hd in Hb. cbn [snd] in Hb.
    exists (a ++ b). rewrite Hb, Ha, app_assoc. reflexivity.
  - inversion H; subst. eauto.
Qed.

Lemma transform_statements_errors p : forall self items self1,
  transform_statements p self = Some (items, self1) ->
  exists added, errors self1 = errors self ++ added.
Proof.
  induction p as [|s p IH]; intros self items self1 H; cbn [transform_statements] in H.
  - inversion H; subst. exists []. symmetry. apply app_nil_r.
  - destruct (transform_statement s self) as [[it s1]|] eqn:Es; [|discriminate].
    destruct (transform_statements p s1) as [[its s2]|] eqn:Ep; [|discriminate].
    inversion H; subst.
    destruct (transform_statement_errors _ _ _ _ Es) as [a Ha].
    destruct (IH _ _ _ Ep) as [b Hb].
    exists (a ++ b). rewrite Hb, Ha, app_assoc. reflexivity.
Qed.

(** The constant table after a statement. *)
Lemma transform_statement_lookup s self item self1 n :
  transform_statement s self = Some (item, self1) ->
  constants self1 !! n =
  if declares n s then
    match transform_value (statement_value s) self with
    | Some (v, _) => Some v
    | None => None
    end
  else constants self !! n.
Proof.
  destruct s as [name t|key t]; cbn [transform_statement declares statement_value];
    destruct (transform_value t self) as [[v s1]|] eqn:Ev; try discriminate;
    destruct (transform_value_extends _ _ _ _ Ev) as [a [Hc _]]; intros H.
  - assert (Hd : declare_const name v s1 = (item, self1)) by congruence.
    pose proof (declare_const_lookup name v s1 n) as Hl.
    rewrite Hd in Hl. cbn [snd] in Hl. rewrite Hl, Hc. reflexivity.
  - inversion H; subst. rewrite Hc. reflexivity.
Qed.

Lemma transform_statements_undeclared p n : forall self items self1,
  transform_statements p self = Some (items, self1) ->
  declared_in n p = false ->
  constants self1 !! n = constants self !! n.
Proof.
  induction p as [|s p IH]; intros self items self1 H Hd;
    cbn [transform_statements] in H.
  - inversion H; subst. reflexivity.
  - destruct (transform_statement s self) as [[it s1]|] eqn:Es; [|discriminate].
    destruct (transform_statements p s1) as [[its s2]|] eqn:Ep; [|discriminate].
    inversion H; subst. cbn [declared_in existsb] in Hd.
    apply orb_false_elim in Hd as [Hs Hp].
    rewrite (IH _ _ _ Ep Hp), (transform_statement_lookup _ _ _ _ n Es), Hs.
    reflexivity.
Qed.

Lemma transform_statement_value s self item self1 :
  transform_statement s self = Some (item, self1) ->
  exists v s1 added,
    transform_value (statement_value s) self = Some (v, s1) /\
    errors self1 = errors s1 ++ added.
Proof.
  destruct s as [name t|key t]; cbn [transform_statement statement_value];
    destruct (transform_value t self) as [[v s1]|] eqn:Ev; try discriminate;
    intros H; exists v, s1.
  - destruct (declare_const_errors name v s1) as [b Hb].
    assert (Hd : declare_const name v s1 = (item, self1)) by congruence.
    rewrite Hd in Hb. eauto.
  - inversion H; subst. exists []. split; [reflexivity|].
    symmetry. apply app_nil_r.
Qed.

(** The constant table after a declaration of [name] and statements that do
    not declare it holds the value the declaration was resolved to. *)
Lemma last_declaration_lookup pre1 name t mid self0 items self :
  transform_statements (pre1 ++ S_declare_const name t :: mid) self0
  = Some (items, self) ->
  declared_in name mid = false ->
  exists items1 self1 v self2,
    transform_statements pre1 self0 = Some (items1, self1) /\
    transform_value t self1 = Some (v, self2) /\
    constants self !! name = Some v.
Proof.
  intros Hpre Hmid. rewrite transform_statements_app in Hpre.
  destruct (transform_statements pre1 self0) as [[items1 self1]|] eqn:E1;
    [|discriminate].
  cbn [transform_statements] in Hpre.
  destruct (transform_statement (S_declare_const name t) self1)
    as [[it s1]|] eqn:Es; [|discriminate].
  destruct (transform_statements mid s1) as [[its s2]|] eqn:Em; [|discriminate].
  inversion Hpre; subst items self.
  pose proof (transform_statement_lookup _ _ _ _ name Es) as Hl.
  cbn [declares statement_value] in Hl. rewrite String.eqb_refl in Hl.
  destruct (transform_value t self1) as [[v self2]|] eqn:Ev.
  - exists items1, self1, v, self2.
    split; [reflexivity|]. split; [exact Ev|].
    rewrite (transform_statements_undeclared _ _ _ _ _ Em Hmid). exact Hl.
  - cbn [transform_statement] in Es. rewrite Ev in Es. discriminate.
Qed.

(** ** Constant references *)

Lemma use_const_undefined name self :
  constants self !! name = None ->
  transform_value (T_use_const name) self
  = Some (VNone, errors_append (msg_undefined name) self).
Proof. intros H. cbn [transform_value]. unfold use_const. rewrite H. reflexivity. Qed.

Lemma use_const_defined name self v :
  constants self !! name = Some v ->
  transform_value (T_use_const name) self = Some (v, self).
Proof. intros H. cbn [transform_value]. unfold use_const. rewrite H. reflexivity. Qed.

(** C1. Take a program [pre ++ s :: post] and a reference [.(name).] that
    occurs, at any depth, in the value of the statement [s]; [self] is the
    state of the transformer when [s] is reached and [self_u] the state in
    which the reference is visited.  If no statement of [pre] declares
    [name], whatever [post] declares, the reference yields [None] (the
    unresolved value) and appends the diagnostic of an undefined constant,
    which is among the diagnostics at the end of the pass.  If [pre] declares
    [name], the reference yields, with no diagnostic, the value that the last
    declaration of [name] in [pre] was resolved to.  The program
    [x: .(y).; y: 0b1;] reports [y] as undefined. *)
Theorem const_ref_sees_earlier_declarations_only
    (pre : program) (s : statement) (post : program) (name : string)
    (items : list (option (string * value))) (self self_u : transformer) :
  transform_statements pre init = Some (items, self) ->
  visits (statement_value s) self (T_use_const name) self_u ->
  (declared_in name pre = false ->
     transform_value (T_use_const name) self_u
     = Some (VNone, errors_append (msg_undefined name) self_u) /\
     forall result final,
       transform (pre ++ s :: post) init = Some (result, final) ->
       In (msg_undefined name) (errors final)) /\
  (forall pre1 t mid,
     pre = pre1 ++ S_declare_const name t :: mid ->
     declared_in name mid = false ->
     exists items1 self1 v self2,
       transform_statements pre1 init = Some (items1, self1) /\
       transform_value t self1 = Some (v, self2) /\
       transform_value (T_use_const name) self_u = Some (v, self_u)) /\
  main "x: .(y).; y: 0b1;"
  = Some {| exit_code := 1; stdout := "";
            stderr := [ErrLine "Error: Undefined constant 'y'"] |}.
Proof.
  intros Hpre Hvis.
  pose proof (visits_constants _ _ _ _ Hvis) as Hcu.
  split; [|split].
  - intros Hnot.
    assert (Hnone : constants self_u !! name = None).
    { rewrite Hcu, (transform_statements_undeclared _ _ _ _ _ Hpre Hnot).
      apply lookup_empty. }
    split; [apply use_const_undefined, Hnone|].
    intros result final Ht. unfold transform in Ht.
    rewrite transform_statements_app, Hpre in Ht.
    cbn [transform_statements] in Ht.
    destruct (transform_statement s self) as [[it s1]|] eqn:Es; [|discriminate].
    destruct (transform_statements post s1) as [[its s2]|] eqn:Ep; [|discriminate].
    inversion Ht; subst result final.
    destruct (transform_statement_value _ _ _ _ Es) as (v & s' & a & Hv & Ha).
    destruct (visits_transformed _ _ _ _ Hvis _ _ Hv) as (vu & su & rest & Hu & Hrest).
    rewrite (use_const_undefined _ _ Hnone) in Hu. inversion Hu; subst vu su.
    destruct (transform_statements_errors _ _ _ _ Ep) as [b Hb].
    rewrite Hb, Ha, Hrest. cbn [errors_append errors].
    rewrite !in_app_iff. left. left. left. right. left. reflexivity.
  - intros pre1 t mid -> Hmid.
    destruct (last_declaration_lookup _ _ _ _ _ _ _ Hpre Hmid)
      as (items1 & self1 & v & self2 & H1 & H2 & H3).
    exists items1, self1, v, self2.
    split; [exact H1|]. split; [exact H2|].
    apply use_const_defined. rewrite Hcu. exact H3.
  - reflexivity.
Qed.

Lemma const_ref_sees_earlier_declarations_only_witness :
  let self := {| constants := <["a" := VInt 1]> ∅; errors := [] |} in
  transform_value (T_use_const "b") self
  = Some (VNone, errors_append (msg_undefined "b") self) /\
  transform_value (T_use_const "a") self = Some (VInt 1, self).
Proof.
  intros self.
  pose proof (const_ref_sees_earlier_declarations_only
                [S_declare_const "a" (T_number "0b1")]
                (S_dict_item "x" (T_make_dict [("k", T_use_const "b")]))
                [S_declare_const "b" (T_number "0b0")] "b" [None] self self
                eq_refl
                (visits_entry [] "k" (T_use_const "b") [] self [] self _ _
                   eq_refl (visits_root _ _))) as [Hb _].
  pose proof (const_ref_sees_earlier_declarations_only
                [S_declare_const "a" (T_number "0b1")]
                (S_dict_item "x" (T_use_const "a"))
                [] "a" [None] self self
                eq_refl (visits_root _ _)) as [_ [Ha _]].
  split.
  - exact (proj1 (Hb eq_refl)).
  - destruct (Ha [] (T_number "0b1") [] eq_refl eq_refl)
      as (items1 & self1 & v & self2 & H1 & H2 & H3).
    cbn in H1, H2. inversion H1; subst. inversion H2; subst. exact H3.
Defined.

(** ** Dictionaries *)

Lemma dict_contains_In k d : dict_contains k d = true <-> In k (dict_keys d).
Proof.
  induction d as [|[k' v'] d IH]; cbn [dict_contains dict_keys map fst In].
  - split; [discriminate | tauto].
  - destruct (String.eqb k k') eqn:E.
    + apply String.eqb_eq in E. subst. tauto.
    + apply String.eqb_neq in E. rewrite IH. unfold dict_keys.
      split; [tauto | intros [H|H]; [congruence | exact H]].
Qed.

Lemma dict_keys_setitem k v d :
  dict_keys (dict_setitem k v d) =
  if dict_contains k d then dict_keys d else dict_keys d ++ [k].
Proof.
  induction d as [|[k' v'] d IH]; cbn [dict_setitem dict_contains]; [reflexivity|].
  destruct (String.eqb k k'); [reflexivity|].
  change (k' :: dict_keys (dict_setitem k v d)
          = if dict_contains k d then k' :: dict_keys d else (k' :: dict_keys d) ++ [k]).
  rewrite IH. destruct (dict_contains k d); reflexivity.
Qed.

Lemma dict_contains_setitem k v d k' :
  dict_contains k' (dict_setitem k v d) = String.eqb k' k || dict_contains k' d.
Proof.
  induction d as [|[k0 v0] d IH]; cbn [dict_setitem dict_contains].
  - destruct (String.eqb k' k); reflexivity.
  - destruct (String.eqb k k0) eqn:E; cbn [dict_contains].
    + apply String.eqb_eq in E. subst k0.
      destruct (String.eqb k' k); reflexivity.
    + rewrite IH. destruct (String.eqb k' k0), (String.eqb k' k); reflexivity.
Qed.

Lemma dict_getitem_setitem k v d k' :
  dict_getitem k' (dict_setitem k v d) =
  if String.eqb k' k then Some v else dict_getitem k' d.
Proof.
  induction d as [|[k0 v0] d IH]; cbn [dict_setitem dict_getitem].
  - reflexivity.
  - destruct (String.eqb k k0) eqn:E; cbn [dict_getitem].
    + apply String.eqb_eq in E. subst k0. destruct (String.eqb k' k); reflexivity.
    + rewrite IH. destruct (String.eqb k' k0) eqn:E0; [|reflexivity].
      apply String.eqb_eq in E0. subst k0.
      rewrite String.eqb_sym, E. reflexivity.
Qed.

Lemma filter_filter_bool {A} (f g : A -> bool) (l : list A) :
  List.filter f (List.filter g l) = List.filter (fun x => g x && f x) l.
Proof.
  induction l as [|x l IH]; cbn [List.filter]; [reflexivity|].
  destruct (g x); cbn [List.filter andb]; [|exact IH].
  destruct (f x); rewrite IH; reflexivity.
Qed.

(** The keys of a dictionary after a run of assignments: those it had, then
    the new ones in the order of their first assignment. *)
Lemma dict_keys_update items : forall d,
  dict_keys (dict_update items d) =
  dict_keys d ++
  List.filter (fun x => negb (dict_contains x d)) (first_occurrences (map fst items)).
Proof.
  unfold dict_update.
  induction items as [|[k v] items IH]; intros d;
    cbn [fold_left map fst snd first_occurrences List.filter].
  - symmetry. apply app_nil_r.
  - rewrite IH, dict_keys_setitem, filter_filter_bool.
    destruct (dict_contains k d) eqn:Ek; cbn [negb].
    + f_equal. apply List.filter_ext. intros x.
      rewrite dict_contains_setitem.
      destruct (String.eqb x k), (dict_contains x d); reflexivity.
    + rewrite <- app_assoc. cbn [app]. do 2 f_equal.
      apply List.filter_ext. intros x. rewrite dict_contains_setitem.
      destruct (String.eqb x k), (dict_contains x d); reflexivity.
Qed.

(** The value under a key after a run of assignments: that of the last
    assignment to the key, or the one the dictionary had. *)
Lemma dict_getitem_update k items : forall d,
  dict_getitem k (dict_update items d) =
  match last_value k items with
  | Some v => Some v
  | None => dict_getitem k d
  end.
Proof.
  unfold dict_update.
  induction items as [|[k' v] items IH]; intros d;
    cbn [fold_left fst snd last_value]; [reflexivity|].
  rewrite IH. destruct (last_value k items); [reflexivity|].
  rewrite dict_getitem_setitem. destruct (String.eqb k k'); reflexivity.
Qed.

Lemma make_dict_loop_result items : forall result self,
  fst (make_dict_loop items result self) = dict_update items result.
Proof.
  induction items as [|[k v] items IH]; intros result self;
    cbn [make_dict_loop]; [reflexivity|]. apply IH.
Qed.

Lemma start_loop_result items : forall result,
  start_loop items result = dict_update (tuples items) result.
Proof.
  induction items as [|[[k v]|] items IH]; intros result;
    cbn [start_loop tuples]; [reflexivity| |]; apply IH.
Qed.

(** ** Diagnostic texts *)

Lemma string_length_app s t :
  String.length (s +:+ t) = (String.length s + String.length t)%nat.
Proof.
  induction s as [|c s IH]; [reflexivity|].
  change (S (String.length (s +:+ t)) = S (String.length s + String.length t)).
  rewrite IH. reflexivity.
Qed.

Lemma string_app_inv_tail s s' t : s +:+ t = s' +:+ t -> s = s'.
Proof.
  revert s'. induction s as [|c s IH]; intros [|c' s'] H.
  - reflexivity.
  - apply (f_equal String.length) in H.
    rewrite !string_length_app in H. cbn [String.length] in H. lia.
  - apply (f_equal String.length) in H.
    rewrite !string_length_app in H. cbn [String.length] in H. lia.
  - change (String c (s +:+ t) = String c' (s' +:+ t)) in H.
    inversion H. f_equal. eauto.
Qed.

Lemma msg_duplicate_inj k k' : msg_duplicate k = msg_duplicate k' -> k = k'.
Proof.
  unfold msg_duplicate. intros H. apply (inj (String.app _)) in H.
  eapply string_app_inv_tail, H.
Qed.

Lemma msg_redefined_inj n n' : msg_redefined n = msg_redefined n' -> n = n'.
Proof.
  unfold msg_redefined. intros H. apply (inj (String.app _)) in H.
  eapply string_app_inv_tail, H.
Qed.

Lemma value_diagnostic_not_redefined msg n :
  value_diagnostic msg -> msg <> msg_redefined n.
Proof.
  intros [[x ->]|[x ->]] H;
    cbv [msg_undefined msg_duplicate msg_redefined String.append] in H;
    discriminate.
Qed.

(** ** Repeated keys *)

Lemma count_occ_snoc (l : list string) (x y : string) :
  count_occ String.string_dec (l ++ [y]) x =
  (count_occ String.string_dec l x + if String.string_dec y x then 1 else 0)%nat.
Proof.
  rewrite count_occ_app. cbn [count_occ].
  destruct (String.string_dec y x); reflexivity.
Qed.

(** The loop of [make_dict] appends one diagnostic for the key [k] each time
    an item assigns [k] while [result] already has it. *)
Lemma make_dict_loop_duplicates k items : forall result self,
  count_occ String.string_dec
    (errors (snd (make_dict_loop items result self))) (msg_duplicate k) =
  (count_occ String.string_dec (errors self) (msg_duplicate k) +
   if dict_contains k result
   then count_occ String.string_dec (map fst items) k
   else Nat.pred (count_occ String.string_dec (map fst items) k))%nat.
Proof.
  induction items as [|[k' v] items IH]; intros result self;
    cbn [make_dict_loop map fst count_occ snd].
  - destruct (dict_contains k result); cbn [Nat.pred]; lia.
  - rewrite IH, dict_contains_setitem.
    destruct (String.string_dec k' k) as [->|Hne].
    + rewrite String.eqb_refl. cbn [orb].
      destruct (dict_contains k result); cbn [errors_append errors Nat.pred].
      * rewrite count_occ_snoc.
        destruct (String.string_dec (msg_duplicate k) (msg_duplicate k));
          [lia | congruence].
      * lia.
    + assert (E : String.eqb k k' = false) by (apply String.eqb_neq; congruence).
      rewrite E. cbn [orb]. f_equal.
      destruct (dict_contains k' result); cbn [errors_append errors]; [|reflexivity].
      rewrite count_occ_snoc.
      destruct (String.string_dec (msg_duplicate k') (msg_duplicate k)) as [Hm|];
        [apply msg_duplicate_inj in Hm; congruence | lia].
Qed.

(** What [make_dict] does with a key that [n + 1] of its items carry: [n]
    diagnostics for the key, the value of the last of the items, and the keys
    in the order of their first occurrences. *)
Lemma make_dict_repeated_key items self k n :
  count_occ String.string_dec (map fst items) k = S n ->
  exists result self1,
    make_dict items self = (VDict result, self1) /\
    constants self1 = constants self /\
    count_occ String.string_dec (errors self1) (msg_duplicate k)
    = (count_occ String.string_dec (errors self) (msg_duplicate k) + n)%nat /\
    dict_getitem k result = last_value k items /\
    dict_keys result = first_occurrences (map fst items).
Proof.
  intros Hn. unfold make_dict.
  pose proof (make_dict_loop_duplicates k items [] self) as Hd.
  pose proof (make_dict_loop_result items [] self) as Hr.
  destruct (make_dict_loop_extends items [] self) as [a (Hc & _ & _)].
  destruct (make_dict_loop items [] self) as [result self1].
  cbn [fst snd] in *. exists result, self1. subst result.
  split; [reflexivity|]. split; [exact Hc|]. split; [|split].
  - rewrite Hd, Hn. reflexivity.
  - rewrite dict_getitem_update. destruct (last_value k items); reflexivity.
  - rewrite dict_keys_update. cbn [dict_keys map app dict_contains negb].
    apply List.filter_true.
Qed.

(** [start] keeps the last value and the place of the first occurrence as
    well; being a function of its items alone, it appends no diagnostic. *)
Lemma start_repeated_key items k :
  dict_getitem k (start items) = last_value k (tuples items) /\
  dict_keys (start items) = first_occurrences (map fst (tuples items)).
Proof.
  unfold start. rewrite start_loop_result. split.
  - rewrite dict_getitem_update. destruct (last_value k (tuples items)); reflexivity.
  - rewrite dict_keys_update. cbn [dict_keys map app dict_contains negb].
    apply List.filter_true.
Qed.

(** C2. A key repeated at the top level goes unreported: [start] assigns
    the items to its [result] without the membership test of [make_dict].
    The text [a = 0b1 a = 0b10] runs to the end with exit code 0 and prints
    [a = 2], where one diagnostic for the duplicate key is due; the same two
    entries inside [table([...])] are reported. *)
Theorem start_misses_duplicate_key :
  parse "a = 0b1 a = 0b10"
  = Some [S_dict_item "a" (T_number "0b1"); S_dict_item "a" (T_number "0b10")] /\
  transform [S_dict_item "a" (T_number "0b1"); S_dict_item "a" (T_number "0b10")] init
  = Some ([("a", VInt 2)], init) /\
  main "a = 0b1 a = 0b10"
  = Some {| exit_code := 0; stdout := "a = 2" +:+ newline; stderr := [] |} /\
  main "t = table([a = 0b1 a = 0b10])"
  = Some {| exit_code := 1; stdout := "";
            stderr := [ErrLine "Error: Duplicate key 'a' in table"] |}.
Proof. repeat split; reflexivity. Qed.

(** ** Redefinitions *)

Lemma count_redefined_value_diagnostics added n :
  Forall value_diagnostic added ->
  count_occ String.string_dec added (msg_redefined n) = 0%nat.
Proof.
  induction 1 as [|m l Hm _ IH]; [reflexivity|].
  rewrite count_occ_cons_neq; [exact IH|].
  apply value_diagnostic_not_redefined, Hm.
Qed.

Lemma extends_count_redefined self self1 added n :
  extends self self1 added ->
  count_occ String.string_dec (errors self1) (msg_redefined n)
  = count_occ String.string_dec (errors self) (msg_redefined n).
Proof.
  intros (_ & He & Hf). rewrite He, count_occ_app.
  rewrite (count_redefined_value_diagnostics _ _ Hf). lia.
Qed.

(** A statement appends a redefinition diagnostic for [n] exactly when it
    declares [n] and [n] is in the constant table already. *)
Lemma transform_statement_redefinitions s self item self1 n :
  transform_statement s self = Some (item, self1) ->
  count_occ String.string_dec (errors self1) (msg_redefined n) =
  (count_occ String.string_dec (errors self) (msg_redefined n) +
   if declares n s
   then match constants self !! n with Some _ => 1 | None => 0 end
   else 0)%nat.
Proof.
  destruct s as [name t|key t]; cbn [transform_statement declares];
    destruct (transform_value t self) as [[v s1]|] eqn:Ev; try discriminate;
    destruct (transform_value_extends _ _ _ _ Ev) as [a Ha]; intros H;
    pose proof (extends_count_redefined _ _ _ n Ha) as Hcount;
    destruct Ha as (Hc & _ & _).
  - assert (Hd : declare_const name v s1 = (item, self1)) by congruence.
    unfold declare_const in Hd. inversion Hd as [[Hi Hs]]. clear Hd Hi Hs.
    cbn [errors]. rewrite <- Hcount, <- Hc.
    destruct (String.eqb name n) eqn:E.
    + apply String.eqb_eq in E. subst n.
      destruct (constants s1 !! name); cbn [errors_append errors]; [|lia].
      rewrite count_occ_snoc.
      destruct (String.string_dec (msg_redefined name) (msg_redefined name));
        [reflexivity | congruence].
    + apply String.eqb_neq in E.
      destruct (constants s1 !! name); cbn [errors_append errors]; [|lia].
      rewrite count_occ_snoc.
      destruct (String.string_dec (msg_redefined name) (msg_redefined n)) as [Hm|];
        [apply msg_redefined_inj in Hm; congruence | reflexivity].
  - inversion H; subst. rewrite Hcount. lia.
Qed.

Lemma transform_statements_no_redefinition p n : forall self items self1,
  transform_statements p self = Some (items, self1) ->
  declared_in n p = false ->
  count_occ String.string_dec (errors self1) (msg_redefined n)
  = count_occ String.string_dec (errors self) (msg_redefined n).
Proof.
  induction p as [|s p IH]; intros self items self1 H Hd;
    cbn [transform_statements] in H.
  - inversion H; subst. reflexivity.
  - destruct (transform_statement s self) as [[it s1]|] eqn:Es; [|discriminate].
    destruct (transform_statements p s1) as [[its s2]|] eqn:Ep; [|discriminate].
    inversion H; subst. cbn [declared_in existsb] in Hd.
    apply orb_false_elim in Hd as [Hs Hp].
    rewrite (IH _ _ _ Ep Hp), (transform_statement_redefinitions _ _ _ _ n Es), Hs.
    lia.
Qed.

Lemma declared_in_app n p q :
  declared_in n (p ++ q) = declared_in n p || declared_in n q.
Proof. apply existsb_app. Qed.

(** C6. In a program with exactly two declarations of [name], at any two
    places, the pass appends exactly one redefinition diagnostic for [name];
    at the end the constant table maps [name] to the value that the second
    declaration was resolved to, and every reference to [name] in a statement
    after the second declaration, at any depth, yields that value. *)
Theorem second_declaration_wins
    (p1 : program) (t1 : tree) (p2 : program) (t2 : tree) (p3 : program)
    (name : string) (items : list (option (string * value)))
    (final : transformer) :
  declared_in name p1 = false ->
  declared_in name p2 = false ->
  declared_in name p3 = false ->
  transform_statements
    (p1 ++ S_declare_const name t1 :: p2 ++ S_declare_const name t2 :: p3) init
  = Some (items, final) ->
  count_occ String.string_dec (errors final) (msg_redefined name) = 1%nat /\
  exists items2 self2 v2 self2',
    transform_statements (p1 ++ S_declare_const name t1 :: p2) init
    = Some (items2, self2) /\
    transform_value t2 self2 = Some (v2, self2') /\
    constants final !! name = Some v2 /\
    forall q s q' itq selfq self_u,
      p3 = q ++ s :: q' ->
      transform_statements
        (p1 ++ S_declare_const name t1 :: p2 ++ S_declare_const name t2 :: q) init
      = Some (itq, selfq) ->
      visits (statement_value s) selfq (T_use_const name) self_u ->
      transform_value (T_use_const name) self_u = Some (v2, self_u).
Proof.
  intros H1 H2 H3 Hrun.
  assert (Hsplit : forall r,
    p1 ++ S_declare_const name t1 :: p2 ++ S_declare_const name t2 :: r
    = (p1 ++ S_declare_const name t1 :: p2) ++ S_declare_const name t2 :: r).
  { intros r. rewrite <- app_assoc. reflexivity. }
  split.
  - rewrite transform_statements_app in Hrun.
    destruct (transform_statements p1 init) as [[i1 s1]|] eqn:E1; [|discriminate].
    cbn [transform_statements] in Hrun.
    destruct (transform_statement (S_declare_const name t1) s1)
      as [[it1 sd1]|] eqn:Ed1; [|discriminate].
    rewrite transform_statements_app in Hrun.
    destruct (transform_statements p2 sd1) as [[i2 s2]|] eqn:E2; [|discriminate].
    cbn [transform_statements] in Hrun.
    destruct (transform_statement (S_declare_const name t2) s2)
      as [[it2 sd2]|] eqn:Ed2; [|discriminate].
    destruct (transform_statements p3 sd2) as [[i3 s3]|] eqn:E3; [|discriminate].
    inversion Hrun; subst items final.
    rewrite (transform_statements_no_redefinition _ _ _ _ _ E3 H3).
    rewrite (transform_statement_redefinitions _ _ _ _ name Ed2).
    rewrite (transform_statements_no_redefinition _ _ _ _ _ E2 H2).
    rewrite (transform_statement_redefinitions _ _ _ _ name Ed1).
    rewrite (transform_statements_no_redefinition _ _ _ _ _ E1 H1).
    cbn [declares]. rewrite String.eqb_refl.
    rewrite (transform_statements_undeclared _ _ _ _ _ E2 H2).
    rewrite (transform_statement_lookup _ _ _ _ name Ed1).
    rewrite (transform_statements_undeclared _ _ _ _ _ E1 H1).
    cbn [declares statement_value init constants errors count_occ].
    rewrite String.eqb_refl, lookup_empty.
    destruct (transform_value t1 s1) as [[v1 s1']|] eqn:Ev1.
    + reflexivity.
    + cbn [transform_statement] in Ed1. rewrite Ev1 in Ed1. discriminate.
  - rewrite Hsplit in Hrun.
    destruct (last_declaration_lookup _ _ _ _ _ _ _ Hrun H3)
      as (items2 & self2 & v2 & self2' & Hp & Hv & Hl).
    exists items2, self2, v2, self2'.
    split; [exact Hp|]. split; [exact Hv|]. split; [exact Hl|].
    intros q s q' itq selfq self_u -> Hq Hvis.
    rewrite declared_in_app in H3. apply orb_false_elim in H3 as [Hq3 _].
    rewrite Hsplit in Hq.
    destruct (last_declaration_lookup _ _ _ _ _ _ _ Hq Hq3)
      as (items2' & self2'' & v2' & self2''' & Hp' & Hv' & Hl').
    rewrite Hp in Hp'. inversion Hp'; subst items2' self2''.
    rewrite Hv in Hv'. inversion Hv'; subst v2' self2'''.
    apply use_const_defined.
    rewrite (visits_constants _ _ _ _ Hvis). exact Hl'.
Qed.

Lemma second_declaration_wins_witness :
  count_occ String.string_dec
    ["Undefined constant 'b'"; "Constant 'a' redefined"] (msg_redefined "a")
  = 1%nat.
Proof.
  exact (proj1 (second_declaration_wins
                  [S_dict_item "k" (T_use_const "b")] (T_number "0b1")
                  [S_declare_const "c" (T_number "0b0")] (T_number "0b10")
                  [S_dict_item "x" (T_make_dict [("y", T_use_const "a")])]
                  "a"
                  [Some ("k", VNone); None; None; None;
                   Some ("x", VDict [("y", VInt 2)])]
                  {| constants := <["a" := VInt 2]> (<["c" := VInt 0]>
                                    (<["a" := VInt 1]> ∅));
                     errors := ["Undefined constant 'b'"; "Constant 'a' redefined"] |}
                  eq_refl eq_refl eq_refl eq_refl)).
Defined.

(** ** The keys of the output *)

Lemma value_keys_dict d : value_keys (VDict d) = dict_all_keys d.
Proof. reflexivity. Qed.

Lemma tree_keys_make_dict es : tree_keys (T_make_dict es) = entries_keys es.
Proof. reflexivity. Qed.

Lemma In_first_occurrences k ks : In k (first_occurrences ks) <-> In k ks.
Proof.
  induction ks as [|k' ks IH]; cbn [first_occurrences In]; [tauto|].
  rewrite filter_In, IH. split.
  - intros [H|[H _]]; auto.
  - intros [H|H]; [auto|].
    destruct (String.eqb k k') eqn:E.
    + apply String.eqb_eq in E. auto.
    + right. split; [exact H | reflexivity].
Qed.

Lemma dict_all_keys_setitem k v d x :
  In x (dict_all_keys (dict_setitem k v d)) ->
  x = k \/ In x (value_keys v) \/ In x (dict_all_keys d).
Proof.
  induction d as [|[k' v'] d IH]; cbn [dict_setitem dict_all_keys In].
  - rewrite app_nil_r. intros [H|H]; auto.
  - destruct (String.eqb k k') eqn:E; cbn [dict_all_keys In]; rewrite !in_app_iff.
    + apply String.eqb_eq in E. subst k'. intros [H|[H|H]]; auto 6.
    + intros [H|[H|H]]; auto 6.
      destruct (IH H) as [H'|[H'|H']]; auto 6.
Qed.

Lemma dict_all_keys_update items : forall d x,
  In x (dict_all_keys (dict_update items d)) ->
  In x (dict_all_keys d) \/ In x (dict_all_keys items).
Proof.
  unfold dict_update.
  induction items as [|[k v] items IH]; intros d x H;
    cbn [fold_left fst snd] in H.
  - auto.
  - cbn [dict_all_keys In]. rewrite in_app_iff.
    destruct (IH _ _ H) as [H'|H']; [|auto].
    destruct (dict_all_keys_setitem _ _ _ _ H') as [->|[Hv|Hd]]; auto.
Qed.

Lemma make_dict_value items self :
  fst (make_dict items self) = VDict (dict_update items []).
Proof.
  unfold make_dict. pose proof (make_dict_loop_result items [] self) as Hr.
  destruct (make_dict_loop items [] self) as [result self1].
  cbn [fst] in *. congruence.
Qed.

(** The keys inside a resolved value come from the entries of its tree or
    from the constant table. *)
Lemma transform_value_keys K t : forall self v self1,
  transform_value t self = Some (v, self1) ->
  table_keys_within K (constants self) ->
  forall k, In k (value_keys v) -> In k K \/ In k (tree_keys t).
Proof.
  induction t as [tok|es IH|name] using tree_ind_entries;
    intros self v self1 H HK k Hk.
  - cbn [transform_value] in H. destruct (number [tok]); inversion H; subst.
    destruct Hk.
  - rewrite transform_value_make_dict in H.
    destruct (transform_entries es self) as [[items self2]|] eqn:E; [|discriminate].
    assert (Hv : v = VDict (dict_update items [])).
    { rewrite <- (make_dict_value items self2).
      inversion H as [Hm]. rewrite Hm. reflexivity. }
    subst v. rewrite value_keys_dict in Hk.
    apply dict_all_keys_update in Hk as [[]|Hk].
    rewrite tree_keys_make_dict. clear H.
    revert self items self2 E HK Hk.
    induction IH as [|[k0 t0] es Ht _ IHes]; intros self items self2 E HK Hk;
      cbn [transform_entries] in E.
    + inversion E; subst. destruct Hk.
    + destruct (transform_value t0 self) as [[v' s1]|] eqn:Ev; [|discriminate].
      destruct (transform_entries es s1) as [[items' s2]|] eqn:Ee; [|discriminate].
      inversion E; subst. cbn [dict_item dict_all_keys entries_keys In] in *.
      rewrite in_app_iff in *. cbn [snd] in Ht.
      destruct Hk as [Hk|[Hk|Hk]]; [auto| |].
      * destruct (Ht _ _ _ Ev HK _ Hk); auto.
      * destruct (transform_value_extends _ _ _ _ Ev) as [a (Hc & _ & _)].
        rewrite <- Hc in HK. destruct (IHes _ _ _ Ee HK Hk); auto.
  - cbn [transform_value] in H. unfold use_const in H.
    destruct (constants self !! name) as [v0|] eqn:El; inversion H; subst.
    + left. eapply HK; eauto.
    + destruct Hk.
Qed.

Lemma table_keys_within_incl K K' c :
  incl K K' -> table_keys_within K c -> table_keys_within K' c.
Proof. intros Hi H n v Hl k Hk. apply Hi. eapply H; eauto. Qed.

(** A statement keeps the keys of the constant table within those seen so
    far, and the tuple of an entry has its keys among them. *)
Lemma transform_statement_keys K s self item self1 :
  transform_statement s self = Some (item, self1) ->
  table_keys_within K (constants self) ->
  table_keys_within (K ++ statement_keys s) (constants self1) /\
  forall kv, item = Some kv ->
    forall k, In k (fst kv :: value_keys (snd kv)) -> In k (K ++ statement_keys s).
Proof.
  intros H HK.
  destruct s as [name t|key t]; cbn [transform_statement statement_keys] in *;
    destruct (transform_value t self) as [[v s1]|] eqn:Ev; try discriminate;
    pose proof (transform_value_keys K _ _ _ _ Ev HK) as Hv;
    destruct (transform_value_extends _ _ _ _ Ev) as [a (Hc & _ & _)].
  - assert (Hd : declare_const name v s1 = (item, self1)) by congruence.
    split.
    + intros n v0 Hl k Hk. rewrite in_app_iff.
      pose proof (declare_const_lookup name v s1 n) as Hl'.
      rewrite Hd in Hl'. cbn [snd] in Hl'. rewrite Hl' in Hl.
      destruct (String.eqb name n).
      * inversion Hl; subst. apply Hv, Hk.
      * left. rewrite Hc in Hl. eapply HK; eauto.
    + intros kv Hkv. unfold declare_const in Hd. inversion Hd. congruence.
  - inversion H; subst. split.
    + rewrite Hc. eapply table_keys_within_incl; [|exact HK].
      apply incl_appl, incl_refl.
    + intros kv Hkv k Hk. inversion Hkv; subst kv.
      cbn [dict_item fst snd In] in Hk. rewrite in_app_iff. cbn [In].
      destruct Hk as [Hk|Hk]; [auto|].
      destruct (Hv _ Hk); auto.
Qed.

Lemma transform_statements_keys p : forall K self items self1,
  transform_statements p self = Some (items, self1) ->
  table_keys_within K (constants self) ->
  forall k, In k (dict_all_keys (tuples items)) -> In k (K ++ program_keys p).
Proof.
  induction p as [|s p IH]; intros K self items self1 H HK k Hk;
    cbn [transform_statements] in H.
  - inversion H; subst. destruct Hk.
  - destruct (transform_statement s self) as [[it s1]|] eqn:Es; [|discriminate].
    destruct (transform_statements p s1) as [[its s2]|] eqn:Ep; [|discriminate].
    inversion H; subst.
    destruct (transform_statement_keys K _ _ _ _ Es HK) as [HK1 Hit].
    cbn [program_keys flat_map]. rewrite app_assoc.
    destruct it as [[k0 v0]|]; cbn [tuples dict_all_keys In] in Hk.
    + rewrite in_app_iff in Hk.
      assert (Hhead : In k (k0 :: value_keys v0) -> In k (K ++ statement_keys s)).
      { apply (Hit (k0, v0) eq_refl). }
      destruct Hk as [Hk|[Hk|Hk]].
      * apply in_or_app. left. apply Hhead. left. exact Hk.
      * apply in_or_app. left. apply Hhead. right. exact Hk.
      * apply (IH _ _ _ _ Ep HK1 _ Hk).
    + apply (IH _ _ _ _ Ep HK1 _ Hk).
Qed.

Lemma transform_statements_top_level_keys p : forall self items self1,
  transform_statements p self = Some (items, self1) ->
  map fst (tuples items) = top_level_keys p.
Proof.
  induction p as [|s p IH]; intros self items self1 H;
    cbn [transform_statements] in H.
  - inversion H; subst. reflexivity.
  - destruct (transform_statement s self) as [[it s1]|] eqn:Es; [|discriminate].
    destruct (transform_statements p s1) as [[its s2]|] eqn:Ep; [|discriminate].
    inversion H; subst. specialize (IH _ _ _ Ep).
    destruct s as [name t|key t]; cbn [transform_statement] in Es;
      destruct (transform_value t self) as [[v s1']|]; try discriminate.
    + unfold declare_const in Es. inversion Es; subst.
      cbn [tuples top_level_keys]. exact IH.
    + inversion Es; subst. cbn [tuples top_level_keys map fst dict_item].
      f_equal. exact IH.
Qed.

(** C7. The keys of the table that the pass returns are exactly the keys of
    the top-level [=]-form statements, each at the place of its first
    occurrence.  Every key of the table, at any nesting level, is the key of
    some [=]-form entry of the program; so the name of a declared constant is
    a key of the output only if it is also the key of such an entry. *)
Theorem output_keys_are_entry_keys
    (p : program) (result : pydict) (final : transformer) :
  transform p init = Some (result, final) ->
  dict_keys result = first_occurrences (top_level_keys p) /\
  (forall k, In k (dict_keys result) <-> In k (top_level_keys p)) /\
  (forall k, In k (value_keys (VDict result)) -> In k (program_keys p)) /\
  (forall name, declared_in name p = true ->
     ~ In name (program_keys p) -> ~ In name (value_keys (VDict result))).
Proof.
  unfold transform. intros H.
  destruct (transform_statements p init) as [[items self1]|] eqn:E; [|discriminate].
  inversion H; subst result final. clear H.
  assert (Hkeys : dict_keys (start items) = first_occurrences (top_level_keys p)).
  { rewrite (proj2 (start_repeated_key items "")).
    rewrite (transform_statements_top_level_keys _ _ _ _ E). reflexivity. }
  assert (Hall : forall k, In k (value_keys (VDict (start items))) ->
                           In k (program_keys p)).
  { intros k Hk. rewrite value_keys_dict in Hk.
    unfold start in Hk. rewrite start_loop_result in Hk.
    apply dict_all_keys_update in Hk as [[]|Hk].
    apply (transform_statements_keys p [] init items self1 E); [|exact Hk].
    intros n v Hl. cbn [init constants] in Hl.
    rewrite lookup_empty in Hl. discriminate. }
  split; [exact Hkeys|]. split; [|split].
  - intros k. rewrite Hkeys. apply In_first_occurrences.
  - exact Hall.
  - intros name _ Hnot Hin. apply Hnot, Hall, Hin.
Qed.

Lemma output_keys_are_entry_keys_witness :
  dict_keys [("x", VDict [("k", VInt 1)])] = ["x"] /\
  ~ In "a" (value_keys (VDict [("x", VDict [("k", VInt 1)])])).
Proof.
  pose proof (output_keys_are_entry_keys
                [S_declare_const "a" (T_make_dict [("k", T_number "0b1")]);
                 S_dict_item "x" (T_use_const "a")]
                [("x", VDict [("k", VInt 1)])]
                {| constants := <["a" := VDict [("k", VInt 1)]]> ∅; errors := [] |}
                eq_refl) as (Hk & _ & _ & Hn).
  split; [exact Hk|].
  apply (Hn "a" eq_refl). cbn. intros [H|[H|[]]]; discriminate.
Defined.

(** ** The serializer *)

Lemma value_ind_entries (P : value -> Prop) :
  (forall n, P (VInt n)) ->
  (forall d, Forall (fun e => P (snd e)) d -> P (VDict d)) ->
  P VNone ->
  forall v, P v.
Proof.
  intros Hi Hd Hn. fix IH 1. intros [n|d|].
  - apply Hi.
  - apply Hd. induction d as [|[k v] d IHd]; constructor.
    + apply IH.
    + apply IHd.
  - apply Hn.
Qed.

Lemma string_app_assoc (a b c : string) : (a +:+ b) +:+ c = a +:+ b +:+ c.
Proof.
  induction a as [|x a IH]; [reflexivity|].
  change (String x ((a +:+ b) +:+ c) = String x (a +:+ b +:+ c)).
  rewrite IH. reflexivity.
Qed.

Lemma concat_cons sep x y l :
  String.concat sep (x :: y :: l) = x +:+ sep +:+ String.concat sep (y :: l).
Proof. reflexivity. Qed.

(** Joining two runs of lines that are not empty puts one separator
    between them. *)
Lemma concat_app sep x a y b :
  String.concat sep ((x :: a) ++ y :: b) =
  String.concat sep (x :: a) +:+ sep +:+ String.concat sep (y :: b).
Proof.
  revert x. induction a as [|x' a IH]; intros x.
  - reflexivity.
  - change (x +:+ sep +:+ String.concat sep ((x' :: a) ++ y :: b)
            = (x +:+ sep +:+ String.concat sep (x' :: a))
              +:+ sep +:+ String.concat sep (y :: b)).
    rewrite IH, !string_app_assoc. reflexivity.
Qed.

Lemma entry_lines_dict indent key d :
  entry_lines indent key (VDict d) =
  [ string_repeat "  " indent +:+ "[" +:+ key +:+ "]"; to_toml d (S indent) ].
Proof. reflexivity. Qed.

Lemma entry_lines_nonempty indent key v :
  exists x l, entry_lines indent key v = x :: l.
Proof. destruct v; cbn [entry_lines]; eauto. Qed.

Lemma toml_lines_cons k v data indent :
  toml_lines ((k, v) :: data) indent = entry_lines indent k v ++ toml_lines data indent.
Proof. reflexivity. Qed.

Lemma toml_lines_app a b indent :
  toml_lines (a ++ b) indent = toml_lines a indent ++ toml_lines b indent.
Proof. apply flat_map_app. Qed.

(** The text of a table whose first entry is [(k, v)]: the lines of the
    entry and, when other entries follow, a newline and their text. *)
Lemma to_toml_cons k v data indent :
  to_toml ((k, v) :: data) indent =
  match data with
  | [] => String.concat newline (entry_lines indent k v)
  | _ :: _ =>
      String.concat newline (entry_lines indent k v)
      +:+ newline +:+ to_toml data indent
  end.
Proof.
  unfold to_toml. rewrite toml_lines_cons.
  destruct data as [|[k' v'] data].
  - cbn [toml_lines flat_map]. rewrite app_nil_r. reflexivity.
  - rewrite toml_lines_cons.
    destruct (entry_lines_nonempty indent k v) as (x & l & ->).
    destruct (entry_lines_nonempty indent k' v') as (x' & l' & ->).
    apply concat_app.
Qed.

Lemma to_toml_joined indent d :
  Forall (fun e => forall i,
            String.concat newline (entry_lines i (fst e) (snd e))
            = entry_text true i (fst e) (snd e)) d ->
  to_toml d indent = table_text true indent d.
Proof.
  induction 1 as [|[k v] d Hkv Hd IH]; [reflexivity|].
  rewrite to_toml_cons. unfold table_text in *. cbn [joined_text].
  cbn [fst snd] in Hkv. rewrite Hkv.
  destruct d; [reflexivity|]. rewrite IH. reflexivity.
Qed.

Lemma entry_lines_text v :
  unresolved_free v = true ->
  forall indent key,
    String.concat newline (entry_lines indent key v) = entry_text true indent key v.
Proof.
  induction v as [n|d IH|] using value_ind_entries; intros Hfree indent key.
  - reflexivity.
  - rewrite entry_lines_dict. cbn [String.concat entry_text].
    change (joined_text (entry_text true (S indent)) d)
      with (table_text true (S indent) d).
    rewrite <- to_toml_joined; [rewrite !string_app_assoc; reflexivity|].
    cbn [unresolved_free] in Hfree. rewrite forallb_forall in Hfree.
    rewrite List.Forall_forall in *. intros [k v] Hin i. cbn [fst snd].
    apply (IH (k, v) Hin). apply (Hfree (k, v)), Hin.
  - discriminate.
Qed.

(** C8, as amended.  For a table free of [None] whose integers are within
    the limit of the decimal conversion (at most 4300 digits, which every
    64-bit integer is) and whose tables nest no deeper than the recursion
    limit allows, the text of [to_toml] is the entries in insertion
    order, each under [indent] copies of the two-space pad: an integer entry
    as the line [key = n] in decimal, a table entry as the header line
    [[key]], with the key alone, followed by the text of the nested table at
    [indent + 1]; newlines stand between the pieces and none is appended at
    the end, so a table that ends with an integer entry ends with the digits
    of that entry. *)
Theorem to_toml_renders_table (data : pydict) (indent : nat) :
  unresolved_free (VDict data) = true ->
  ints_printable (VDict data) = true ->
  nests_within_limit (VDict data) = true ->
  to_toml data indent = table_text true indent data /\
  forall k n,
    printable n = true ->
    to_toml (data ++ [(k, VInt n)]) indent =
    match data with
    | [] => EmptyString
    | _ :: _ => to_toml data indent +:+ newline
    end +:+ string_repeat "  " indent +:+ k +:+ " = " +:+ str_int n.
Proof.
  intros Hfree _ _. split.
  - apply to_toml_joined.
    cbn [unresolved_free] in Hfree. rewrite forallb_forall in Hfree.
    rewrite List.Forall_forall. intros [k v] Hin i. cbn [fst snd].
    apply entry_lines_text. apply (Hfree (k, v)), Hin.
  - intros k n _. unfold to_toml. rewrite toml_lines_app.
    destruct data as [|[k0 v0] data]; [reflexivity|].
    rewrite toml_lines_cons.
    destruct (entry_lines_nonempty indent k0 v0) as (x & l & ->).
    cbn [toml_lines flat_map entry_lines]. rewrite app_nil_r.
    change ((x :: l) ++ toml_lines data indent)
      with (x :: l ++ toml_lines data indent).
    rewrite concat_app, !string_app_assoc. reflexivity.
Qed.

Lemma to_toml_renders_table_witness :
  to_toml [("port", VInt 8); ("db", VDict [("host", VInt 1)])] 0
  = "port = 8" +:+ newline +:+ "[db]" +:+ newline +:+ "  host = 1".
Proof.
  exact (proj1 (to_toml_renders_table
                  [("port", VInt 8); ("db", VDict [("host", VInt 1)])] 0
                  eq_refl eq_refl eq_refl)).
Defined.

(** C8, as stated, fails on a nested integer: its line is under the pad of
    its level, [  host = 1], and does not start at the margin. *)
Lemma to_toml_pads_integer_lines :
  unresolved_free (VDict [("db", VDict [("host", VInt 1)])]) = true /\
  to_toml [("db", VDict [("host", VInt 1)])] 0
  = "[db]" +:+ newline +:+ "  host = 1" /\
  table_text false 0 [("db", VDict [("host", VInt 1)])]
  = "[db]" +:+ newline +:+ "host = 1" /\
  to_toml [("db", VDict [("host", VInt 1)])] 0
  <> table_text false 0 [("db", VDict [("host", VInt 1)])].
Proof. repeat split; try reflexivity. discriminate. Qed.

(** C9. Serializing a table twice gives the same text: [to_toml] reads its
    two arguments and nothing else.  In particular two runs that resolve to
    the same table with no diagnostic end alike, whatever their constant
    tables hold; when they return, it is with exit code 0 and the text of
    that table on standard output. *)
Theorem to_toml_deterministic (data : pydict) (indent : nat) :
  (forall out1 out2,
     out1 = to_toml data indent -> out2 = to_toml data indent -> out1 = out2) /\
  (forall text1 text2 p1 p2 self1 self2,
     parse text1 = Some p1 -> transform p1 init = Some (data, self1) ->
     parse text2 = Some p2 -> transform p2 init = Some (data, self2) ->
     errors self1 = [] -> errors self2 = [] ->
     main text1 = main text2 /\
     forall pr, main text1 = Some pr ->
                exit_code pr = 0 /\
                stdout pr = to_toml data 0 +:+ newline /\
                stderr pr = []).
Proof.
  split.
  - intros out1 out2 -> ->. reflexivity.
  - intros text1 text2 p1 p2 self1 self2 P1 T1 P2 T2 E1 E2.
    unfold main. rewrite P1, T1, E1, P2, T2, E2. split; [reflexivity|].
    intros pr H. inversion H; subst pr. repeat split.
Qed.

Lemma to_toml_deterministic_witness :
  main "a: 0b1; x = .(a)." = main "x = 0b1".
Proof.
  exact (proj1 (proj2 (to_toml_deterministic [("x", VInt 1)] 0)
                  "a: 0b1; x = .(a)." "x = 0b1"
                  [S_declare_const "a" (T_number "0b1"); S_dict_item "x" (T_use_const "a")]
                  [S_dict_item "x" (T_number "0b1")]
                  {| constants := <["a" := VInt 1]> ∅; errors := [] |}
                  init
                  eq_refl eq_refl eq_refl eq_refl eq_refl eq_refl)).
Defined.

(** C10. An entry whose value is the empty table, which [table([])]
    denotes, appends two lines: the header and the empty text of the nested
    table.  Alone or last in its table it renders as the header and a
    newline; before other entries, as the header, an empty line, and then
    the rest. *)
Theorem empty_table_renders_empty_line
    (pre : pydict) (k : string) (post : pydict) (indent : nat) :
  toml_lines (pre ++ (k, VDict []) :: post) indent
  = toml_lines pre indent
    ++ [string_repeat "  " indent +:+ "[" +:+ k +:+ "]"; ""]
    ++ toml_lines post indent /\
  to_toml [] (S indent) = "" /\
  to_toml [(k, VDict [])] indent
  = string_repeat "  " indent +:+ "[" +:+ k +:+ "]" +:+ newline /\
  match post with
  | [] => True
  | _ :: _ =>
      to_toml ((k, VDict []) :: post) indent
      = string_repeat "  " indent +:+ "[" +:+ k +:+ "]" +:+ newline
        +:+ newline +:+ to_toml post indent
  end /\
  parse "k = table([])" = Some [S_dict_item "k" (T_make_dict [])] /\
  main "k = table([])"
  = Some {| exit_code := 0; stdout := "[k]" +:+ newline +:+ newline; stderr := [] |}.
Proof.
  split; [|split; [|split; [|split; [|split]]]]; try reflexivity.
  - rewrite toml_lines_app, toml_lines_cons. reflexivity.
  - unfold to_toml. cbn [toml_lines flat_map entry_lines app String.concat].
    rewrite !string_app_assoc. reflexivity.
  - destruct post as [|e post]; [exact I|].
    rewrite to_toml_cons, entry_lines_dict.
    change (to_toml [] (S indent)) with EmptyString.
    cbn [String.concat]. rewrite !string_app_assoc. reflexivity.
Qed.

(** ** Whole runs *)

(** C3, as stated, fails: the rule [dict_entry] ends with an optional [,]
    and the [;] closes a [const_decl] only, so the text is rejected at the
    [;] that follows [port = 0b1000]. *)
Lemma semicolon_after_entry_is_syntax_error :
  parse "a: 0b11; port = 0b1000; db = table([ host = 0b1; ]) ;" = None /\
  main "a: 0b11; port = 0b1000; db = table([ host = 0b1; ]) ;"
  = Some {| exit_code := 1; stdout := ""; stderr := [SyntaxErrorLine] |} /\
  main "a: 0b11; port = 0b1000; db = table([ host = 0b1; ]) ;"
  <> Some {| exit_code := 0;
             stdout := "port = 8" +:+ newline +:+ "[db]" +:+ newline
                       +:+ "  host = 1" +:+ newline;
             stderr := [] |}.
Proof. repeat split; try reflexivity. discriminate. Qed.

(** C3, as amended.  With [,] after the three entries, or with nothing
    after them, the text is parsed, resolved with no diagnostic and printed
    as the three lines [port = 8], [[db]] and [  host = 1], with exit code
    0 and nothing on standard error. *)
Theorem end_to_end_success :
  parse "a: 0b11; port = 0b1000, db = table([ host = 0b1, ]) ,"
  = Some [S_declare_const "a" (T_number "0b11");
          S_dict_item "port" (T_number "0b1000");
          S_dict_item "db" (T_make_dict [("host", T_number "0b1")])] /\
  main "a: 0b11; port = 0b1000, db = table([ host = 0b1, ]) ,"
  = Some {| exit_code := 0;
            stdout := "port = 8" +:+ newline +:+ "[db]" +:+ newline
                      +:+ "  host = 1" +:+ newline;
            stderr := [] |} /\
  main "a: 0b11; port = 0b1000 db = table([ host = 0b1 ])"
  = main "a: 0b11; port = 0b1000, db = table([ host = 0b1, ]) ," /\
  to_toml [("port", VInt 8); ("db", VDict [("host", VInt 1)])] 0
  = "port = 8" +:+ newline +:+ "[db]" +:+ newline +:+ "  host = 1".
Proof. repeat split; reflexivity. Qed.

(** C4, as stated, fails: the [;] after the entry is a syntax error, the
    transformer never runs, and the line on standard error is that of the
    syntax error. *)
Lemma semicolon_hides_undefined_constant :
  parse "x = .(missing).;" = None /\
  main "x = .(missing).;"
  = Some {| exit_code := 1; stdout := ""; stderr := [SyntaxErrorLine] |} /\
  main "x = .(missing).;"
  <> Some {| exit_code := 1; stdout := "";
             stderr := [ErrLine "Error: Undefined constant 'missing'"] |}.
Proof. repeat split; try reflexivity. discriminate. Qed.

(** C4, as amended.  Without the [;], the text is parsed, the reference
    is reported, and the run ends with exit code 1, the one line
    [Error: Undefined constant 'missing'] on standard error and nothing on
    standard output. *)
Theorem end_to_end_undefined_constant :
  parse "x = .(missing)." = Some [S_dict_item "x" (T_use_const "missing")] /\
  transform [S_dict_item "x" (T_use_const "missing")] init
  = Some ([("x", VNone)],
          {| constants := ∅; errors := ["Undefined constant 'missing'"] |}) /\
  main "x = .(missing)."
  = Some {| exit_code := 1; stdout := "";
            stderr := [ErrLine "Error: Undefined constant 'missing'"] |}.
Proof. repeat split; reflexivity. Qed.

(** ** What the parser builds *)

Lemma all_bin_digits_take_while s :
  all_bin_digits (take_while is_bin_digit s) = true.
Proof.
  induction s as [|c r IH]; cbn [take_while]; [reflexivity|].
  destruct (is_bin_digit c) eqn:E; [|reflexivity].
  cbn [all_bin_digits]. rewrite E, IH. reflexivity.
Qed.

(** The lexer emits a [BIN_NUMBER] only for a text that matches it. *)
Lemma lexeme_at_token_ok s t len :
  lexeme_at s = Emit t len -> token_ok t = true.
Proof.
  destruct s as [|c r]; [discriminate|]. cbn [lexeme_at].
  destruct (is_ws c); [discriminate|].
  destruct (is_lower c); [intros H; inversion H; reflexivity|].
  destruct (Ascii.eqb c "0") eqn:E0.
  - apply Ascii.eqb_eq in E0. subst c.
    destruct r as [|m r']; [discriminate|].
    destruct (Ascii.eqb m "b" || Ascii.eqb m "B") eqn:Em; [|discriminate].
    pose proof (all_bin_digits_take_while r') as Hall.
    destruct (take_while is_bin_digit r') as [|d ds]; [discriminate|].
    intros H. inversion H; subst. cbn [token_ok].
    unfold matches_BIN_NUMBER. rewrite Em, Hall. reflexivity.
  - intros H.
    repeat match type of H with
           | (if ?b then _ else _) = _ => destruct b
           | match ?x with _ => _ end = _ => destruct x
           end;
      try discriminate; inversion H; reflexivity.
Qed.

Lemma lex_from_tokens_ok s : forall skip ts,
  lex_from skip s = Some ts -> forallb token_ok ts = true.
Proof.
  induction s as [|c r IH]; intros skip ts H; cbn [lex_from] in H.
  - inversion H. reflexivity.
  - destruct skip as [|k]; [|eauto].
    destruct (lexeme_at (String c r)) as [t len|len|] eqn:El; [| eauto | discriminate].
    destruct (lex_from (Nat.pred len) r) as [ts'|] eqn:Er; [|discriminate].
    inversion H; subst. cbn [forallb].
    rewrite (lexeme_at_token_ok _ _ _ El), (IH _ _ Er). reflexivity.
Qed.

Lemma parse_value_table fuel' kw ts1 :
  parse_value (S fuel') (IDENT kw :: LPAR :: LSQB :: ts1) =
  if String.eqb kw "table" then
    match parse_entries fuel' fuel' ts1 with
    | Some (es, RSQB :: RPAR :: ts2) => Some (T_make_dict es, ts2)
    | _ => None
    end
  else None.
Proof. reflexivity. Qed.

Lemma skip_comma_ok ts :
  forallb token_ok ts = true ->
  forallb token_ok (match ts with COMMA :: r => r | _ => ts end) = true.
Proof.
  destruct ts as [|[] r]; cbn [forallb token_ok andb]; auto.
Qed.

(** What the parser builds from tokens of the lexer is well formed. *)
Lemma parse_value_wf fuel : forall ts t rest,
  forallb token_ok ts = true ->
  parse_value fuel ts = Some (t, rest) ->
  wf_tree t = true /\ forallb token_ok rest = true.
Proof.
  induction fuel as [|fuel' IH]; intros ts t rest Hok H; [discriminate|].
  assert (Hent : forall n ts es rest,
    forallb token_ok ts = true ->
    parse_entries fuel' n ts = Some (es, rest) ->
    forallb (fun '(_, t') => wf_tree t') es = true /\
    forallb token_ok rest = true).
  { clear ts t rest Hok H.
    induction n as [|n IHn]; intros ts es rest Hok H; [discriminate|].
    cbn [parse_entries] in H.
    destruct ts as [|[key|v| | | | | | | | | |] ts0];
      try (inversion H; subst; split; [reflexivity | exact Hok]).
    destruct ts0 as [|[key'|v| | | | | | | | | |] ts1];
      try (inversion H; subst; split; [reflexivity | exact Hok]).
    destruct (parse_value fuel' ts1) as [[v ts2]|] eqn:Ev; [|discriminate].
    cbn [forallb token_ok andb] in Hok.
    destruct (IH _ _ _ Hok Ev) as [Hv Hts2].
    apply skip_comma_ok in Hts2.
    destruct (parse_entries fuel' n
                (match ts2 with COMMA :: r => r | _ => ts2 end))
      as [[es' ts4]|] eqn:Ee; [|discriminate].
    destruct (IHn _ _ _ Hts2 Ee) as [Hes Hts4].
    inversion H; subst. cbn [forallb]. rewrite Hv, Hes. auto. }
  destruct ts as [|[kw|v| | | | | | | | | |] ts0]; try discriminate.
  - destruct ts0 as [|[ | | | | | | | | | | |] ts1]; try discriminate.
    destruct ts1 as [|[ | | | | | | | | | | |] ts2]; try discriminate.
    rewrite parse_value_table in H.
    destruct (String.eqb kw "table"); [|discriminate].
    destruct (parse_entries fuel' fuel' ts2) as [[es r0]|] eqn:Ee; [|discriminate].
    cbn [forallb token_ok andb] in Hok.
    destruct (Hent _ _ _ _ Hok Ee) as [Hes Hr0].
    destruct r0 as [|[ | | | | | | | | | | |] r1]; try discriminate.
    destruct r1 as [|[ | | | | | | | | | | |] r2]; try discriminate.
    inversion H; subst. cbn [wf_tree]. split; [exact Hes | exact Hr0].
  - cbn [parse_value] in H. inversion H; subst.
    cbn [forallb token_ok wf_tree] in *. apply andb_prop in Hok. exact Hok.
  - destruct ts0 as [|[name| | | | | | | | | | |] ts1]; try discriminate.
    destruct ts1 as [|[ | | | | | | | | | | |] ts2]; try discriminate.
    cbn [parse_value] in H. inversion H; subst.
    cbn [forallb token_ok andb wf_tree] in *. auto.
Qed.

Lemma parse_statements_wf fuel : forall ts p,
  forallb token_ok ts = true ->
  parse_statements fuel ts = Some p ->
  wf_program p = true.
Proof.
  induction fuel as [|fuel' IH]; intros ts p Hok H; [discriminate|].
  cbn [parse_statements] in H.
  destruct ts as [|[name|v| | | | | | | | | |] ts0]; try discriminate.
  - inversion H. reflexivity.
  - destruct ts0 as [|[ | | | | | | | | | | |] ts1]; try discriminate;
      cbn [forallb token_ok andb] in Hok;
      destruct (parse_value fuel' ts1) as [[v ts2]|] eqn:Ev; try discriminate;
      destruct (parse_value_wf _ _ _ _ Hok Ev) as [Hv Hts2].
    + destruct ts2 as [|[ | | | | | | | | | | |] ts3]; try discriminate.
      destruct (parse_statements fuel' ts3) as [p'|] eqn:Ep; [|discriminate].
      inversion H; subst. cbn [wf_program forallb statement_value].
      rewrite Hv. cbn [forallb token_ok andb] in Hts2. apply (IH _ _ Hts2 Ep).
    + apply skip_comma_ok in Hts2.
      destruct (parse_statements fuel'
                  (match ts2 with COMMA :: r => r | _ => ts2 end))
        as [p'|] eqn:Ep; [|discriminate].
      inversion H; subst. cbn [wf_program forallb statement_value].
      rewrite Hv. apply (IH _ _ Hts2 Ep).
Qed.

Lemma parse_wf text p : parse text = Some p -> wf_program p = true.
Proof.
  unfold parse, lex. destruct (lex_from 0 text) as [ts|] eqn:El; [|discriminate].
  apply parse_statements_wf. apply (lex_from_tokens_ok _ _ _ El).
Qed.

(** ** The fuel of the parser is enough *)

Lemma skip_comma_length ts :
  (length (match ts with COMMA :: r => r | _ => ts end) <= length ts)%nat.
Proof. destruct ts as [|[] r]; cbn [length]; lia. Qed.

(** A value that is parsed with some fuel consumes at least one token and
    is parsed alike with any fuel that is at least the number of tokens it
    consumes. *)
Lemma parse_value_fuel n : forall ts t rest,
  parse_value n ts = Some (t, rest) ->
  (length rest < length ts)%nat /\
  forall m, (length ts - length rest <= m)%nat ->
            parse_value m ts = Some (t, rest).
Proof.
  induction n as [|fuel' IH]; intros ts t rest H; [discriminate|].
  assert (Hent : forall k ts es rest,
    parse_entries fuel' k ts = Some (es, rest) ->
    (length rest <= length ts)%nat /\
    forall m' k', (length ts - length rest <= m')%nat ->
                  (length ts - length rest < k')%nat ->
                  parse_entries m' k' ts = Some (es, rest)).
  { clear ts t rest H.
    induction k as [|k IHk]; intros ts es rest H; [discriminate|].
    cbn [parse_entries] in H.
    destruct ts as [|[key|v| | | | | | | | | |] ts0];
      try (inversion H; subst; split; [lia|];
           intros m' [|k'] _ Hk; [lia | reflexivity]).
    destruct ts0 as [|[key'|v| | | | | | | | | |] ts1];
      try (inversion H; subst; split; [lia|];
           intros m' [|k'] _ Hk; [lia | reflexivity]).
    destruct (parse_value fuel' ts1) as [[v ts2]|] eqn:Ev; [|discriminate].
    destruct (IH _ _ _ Ev) as [Hlt Hv].
    pose proof (skip_comma_length ts2) as Hc.
    destruct (parse_entries fuel' k
                (match ts2 with COMMA :: r => r | _ => ts2 end))
      as [[es' ts4]|] eqn:Ee; [|discriminate].
    destruct (IHk _ _ _ Ee) as [Hle He].
    inversion H; subst es rest. cbn [length] in *. split; [lia|].
    intros m' [|k'] Hm Hk; [lia|]. cbn [parse_entries].
    rewrite (Hv m') by lia. rewrite (He m' k') by lia. reflexivity. }
  destruct ts as [|[kw|v| | | | | | | | | |] ts0]; try discriminate.
  - destruct ts0 as [|[ | | | | | | | | | | |] ts1]; try discriminate.
    destruct ts1 as [|[ | | | | | | | | | | |] ts2]; try discriminate.
    rewrite parse_value_table in H.
    destruct (String.eqb kw "table") eqn:Ekw; [|discriminate].
    destruct (parse_entries fuel' fuel' ts2) as [[es r0]|] eqn:Ee; [|discriminate].
    destruct (Hent _ _ _ _ Ee) as [Hle He].
    destruct r0 as [|[ | | | | | | | | | | |] r1]; try discriminate.
    destruct r1 as [|[ | | | | | | | | | | |] r2]; try discriminate.
    inversion H; subst t rest. cbn [length] in *. split; [lia|].
    intros [|m'] Hm; [lia|].
    rewrite parse_value_table, Ekw, (He m' m') by (cbn [length]; lia).
    reflexivity.
  - cbn [parse_value] in H. inversion H; subst. cbn [length]. split; [lia|].
    intros [|m'] Hm; [lia | reflexivity].
  - destruct ts0 as [|[name| | | | | | | | | | |] ts1]; try discriminate.
    destruct ts1 as [|[ | | | | | | | | | | |] ts2]; try discriminate.
    cbn [parse_value] in H. inversion H; subst. cbn [length]. split; [lia|].
    intros [|m'] Hm; [lia | reflexivity].
Qed.

Lemma parse_statements_fuel n : forall ts p,
  parse_statements n ts = Some p ->
  forall m, (length ts < m)%nat -> parse_statements m ts = Some p.
Proof.
  induction n as [|fuel' IH]; intros ts p H [|m'] Hm; try discriminate; [lia|].
  cbn [parse_statements] in *.
  destruct ts as [|[name|v| | | | | | | | | |] ts0]; try discriminate.
  - exact H.
  - destruct ts0 as [|[ | | | | | | | | | | |] ts1]; try discriminate;
      destruct (parse_value fuel' ts1) as [[v ts2]|] eqn:Ev; try discriminate;
      destruct (parse_value_fuel _ _ _ _ Ev) as [Hlt Hv];
      cbn [length] in Hm.
    + destruct ts2 as [|[ | | | | | | | | | | |] ts3]; try discriminate.
      destruct (parse_statements fuel' ts3) as [p'|] eqn:Ep; [|discriminate].
      cbn [length] in Hlt.
      rewrite (Hv m') by (cbn [length]; lia).
      rewrite (IH _ _ Ep m') by lia. exact H.
    + pose proof (skip_comma_length ts2) as Hc.
      destruct (parse_statements fuel'
                  (match ts2 with COMMA :: r => r | _ => ts2 end))
        as [p'|] eqn:Ep; [|discriminate].
      rewrite (Hv m') by lia.
      rewrite (IH _ _ Ep m') by lia. exact H.
Qed.

(** A token sequence that some fuel parses is parsed with the fuel that
    [parse] gives: a text is never rejected for want of fuel. *)
Lemma parse_fuel_enough n ts p :
  parse_statements n ts = Some p ->
  parse_statements (S (length ts)) ts = Some p.
Proof. intros H. apply (parse_statements_fuel n); [exact H | lia]. Qed.

(** ** Successful runs serialize resolved tables *)

Lemma dict_resolved_setitem k v d :
  unresolved_free v = true ->
  unresolved_free (VDict d) = true ->
  unresolved_free (VDict (dict_setitem k v d)) = true.
Proof.
  intros Hv. cbn [unresolved_free].
  induction d as [|[k' v'] d IH]; cbn [dict_setitem forallb].
  - intros _. rewrite Hv. reflexivity.
  - intros H. apply andb_prop in H as [Hv' Hd].
    destruct (String.eqb k k'); cbn [forallb].
    + rewrite Hv, Hd. reflexivity.
    + rewrite Hv', (IH Hd). reflexivity.
Qed.

Lemma dict_resolved_update items : forall d,
  unresolved_free (VDict items) = true ->
  unresolved_free (VDict d) = true ->
  unresolved_free (VDict (dict_update items d)) = true.
Proof.
  unfold dict_update.
  induction items as [|[k v] items IH]; intros d Hi Hd; cbn [fold_left fst snd].
  - exact Hd.
  - cbn [unresolved_free forallb] in Hi. apply andb_prop in Hi as [Hv Hi].
    apply IH; [exact Hi|]. apply dict_resolved_setitem; assumption.
Qed.

Lemma extends_no_errors self self1 added :
  extends self self1 added -> errors self1 = [] -> errors self = [].
Proof.
  intros (_ & He & _) H. rewrite He in H.
  apply app_eq_nil in H. tauto.
Qed.

(** A value resolved without any diagnostic, from a constant table with no
    [None] in it, has no [None] in it. *)
Lemma transform_value_resolved t : forall self v self1,
  transform_value t self = Some (v, self1) ->
  errors self1 = [] ->
  table_resolved (constants self) ->
  unresolved_free v = true.
Proof.
  induction t as [tok|es IH|name] using tree_ind_entries;
    intros self v self1 H Hnil Hc.
  - cbn [transform_value] in H. destruct (number [tok]); inversion H. reflexivity.
  - rewrite transform_value_make_dict in H.
    destruct (transform_entries es self) as [[items self2]|] eqn:E; [|discriminate].
    assert (Hv : v = VDict (dict_update items [])).
    { rewrite <- (make_dict_value items self2).
      inversion H as [Hm]. rewrite Hm. reflexivity. }
    assert (Hnil2 : errors self2 = []).
    { destruct (make_dict_extends items self2) as [b Hb].
      inversion H as [Hm]. rewrite Hm in Hb. cbn [snd] in Hb.
      eapply extends_no_errors; eauto. }
    subst v. apply dict_resolved_update; [|reflexivity]. clear H Hnil.
    revert self items self2 E Hnil2 Hc.
    induction IH as [|[k0 t0] es Ht _ IHes]; intros self items self2 E Hnil2 Hc;
      cbn [transform_entries] in E.
    + inversion E. reflexivity.
    + destruct (transform_value t0 self) as [[v' s1]|] eqn:Ev; [|discriminate].
      destruct (transform_entries es s1) as [[items' s2]|] eqn:Ee; [|discriminate].
      inversion E; subst items self2. cbn [snd] in Ht.
      destruct (transform_entries_extends _ _ _ _ Ee) as [b Hb].
      destruct (transform_value_extends _ _ _ _ Ev) as [a Ha].
      assert (Hnil1 : errors s1 = []) by (eapply extends_no_errors; eauto).
      cbn [dict_item unresolved_free forallb].
      rewrite (Ht _ _ _ Ev Hnil1 Hc).
      destruct Ha as (Hca & _ & _). rewrite <- Hca in Hc.
      exact (IHes _ _ _ Ee Hnil2 Hc).
  - cbn [transform_value] in H. unfold use_const in H.
    destruct (constants self !! name) as [v0|] eqn:El; inversion H; subst.
    + eapply Hc; eauto.
    + cbn [errors_append errors] in Hnil. apply app_eq_nil in Hnil as [_ Hn].
      discriminate.
Qed.

Lemma transform_statements_resolved p : forall self items self1,
  transform_statements p self = Some (items, self1) ->
  errors self1 = [] ->
  table_resolved (constants self) ->
  unresolved_free (VDict (tuples items)) = true.
Proof.
  induction p as [|s p IH]; intros self items self1 H Hnil Hc;
    cbn [transform_statements] in H.
  - inversion H. reflexivity.
  - destruct (transform_statement s self) as [[it s1]|] eqn:Es; [|discriminate].
    destruct (transform_statements p s1) as [[its s2]|] eqn:Ep; [|discriminate].
    inversion H; subst items self1.
    destruct (transform_statements_errors _ _ _ _ Ep) as [b Hb].
    assert (Hnil1 : errors s1 = []).
    { rewrite Hb in Hnil. apply app_eq_nil in Hnil. tauto. }
    destruct (transform_statement_value _ _ _ _ Es) as (v & s' & a & Hv & Ha).
    assert (Hnil' : errors s' = []).
    { rewrite Ha in Hnil1. apply app_eq_nil in Hnil1. tauto. }
    pose proof (transform_value_resolved _ _ _ _ Hv Hnil' Hc) as Hres.
    assert (Hc1 : table_resolved (constants s1)).
    { intros n v0 Hl.
      rewrite (transform_statement_lookup _ _ _ _ n Es), Hv in Hl.
      destruct (declares n s); [inversion Hl; subst; exact Hres | eauto]. }
    specialize (IH _ _ _ Ep Hnil Hc1).
    destruct s as [name t|key t]; cbn [transform_statement statement_value] in *;
      rewrite Hv in Es.
    + unfold declare_const in Es. inversion Es; subst it. exact IH.
    + inversion Es; subst it. cbn [tuples dict_item unresolved_free forallb] in *.
      rewrite Hres, IH. reflexivity.
Qed.

(** X9. A run that ends with exit code 0 has parsed its text, resolved it
    with no diagnostic to a table with no [None] in it, at any level, and
    printed the text of that very table, followed by a newline: [to_toml] is
    never given an unresolved reference. *)
Lemma successful_run_prints_resolved_table text pr :
  main text = Some pr ->
  exit_code pr = 0 ->
  exists p result final,
    parse text = Some p /\
    transform p init = Some (result, final) /\
    errors final = [] /\
    unresolved_free (VDict result) = true /\
    stdout pr = (to_toml result 0 +:+ newline) /\
    stderr pr = [].
Proof.
  unfold main. intros H Hexit.
  destruct (parse text) as [p|]; [|inversion H; subst; discriminate].
  destruct (transform p init) as [[result self]|] eqn:Et; [|discriminate].
  destruct (errors self) as [|e errs] eqn:Ee; [|inversion H; subst; discriminate].
  inversion H; subst pr. cbn [stdout stderr].
  exists p, result, self. repeat split; try assumption.
  unfold transform in Et.
  destruct (transform_statements p init) as [[items self1]|] eqn:E; [|discriminate].
  inversion Et; subst result self.
  unfold start. rewrite start_loop_result.
  apply dict_resolved_update; [|reflexivity].
  apply (transform_statements_resolved _ _ _ _ E Ee).
  intros n v Hl. cbn [init constants] in Hl.
  rewrite lookup_empty in Hl. discriminate.
Qed.

(** * Further properties *)

(** ** Tables without and with repeated keys *)

Lemma existsb_eqb_In k l : existsb (String.eqb k) l = true <-> In k l.
Proof.
  rewrite existsb_exists. split.
  - intros (x & Hx & E). apply String.eqb_eq in E. subst. exact Hx.
  - intros H. exists k. split; [exact H | apply String.eqb_refl].
Qed.

Lemma existsb_eqb_not_In k l : existsb (String.eqb k) l = false <-> ~ In k l.
Proof.
  rewrite <- existsb_eqb_In. destruct (existsb (String.eqb k) l); split;
    congruence.
Qed.

Lemma distinct_NoDup ks : distinct ks = true <-> List.NoDup ks.
Proof.
  induction ks as [|k r IH]; cbn [distinct].
  - split; [constructor | reflexivity].
  - rewrite andb_true_iff, negb_true_iff, existsb_eqb_not_In, IH. split.
    + intros [H1 H2]. constructor; assumption.
    + intros H. inversion H; subst. split; assumption.
Qed.

Lemma dict_contains_existsb k d :
  dict_contains k d = existsb (String.eqb k) (dict_keys d).
Proof.
  induction d as [|[k' v'] d IH]; cbn [dict_contains dict_keys map fst existsb];
    [reflexivity|].
  destruct (String.eqb k k'); [reflexivity | exact IH].
Qed.

Lemma dict_setitem_fresh k v d :
  dict_contains k d = false -> dict_setitem k v d = d ++ [(k, v)].
Proof.
  induction d as [|[k' v'] d IH]; cbn [dict_contains dict_setitem app];
    [reflexivity|].
  destruct (String.eqb k k'); [discriminate|]. intros H. rewrite (IH H).
  reflexivity.
Qed.

Lemma make_dict_loop_distinct items : forall result self,
  distinct (dict_keys result ++ map fst items) = true ->
  make_dict_loop items result self = (result ++ items, self).
Proof.
  induction items as [|[k v] items IH]; intros result self H;
    cbn [make_dict_loop map fst] in *.
  - rewrite app_nil_r. reflexivity.
  - assert (Hk : dict_contains k result = false).
    { rewrite dict_contains_existsb. apply existsb_eqb_not_In.
      apply distinct_NoDup in H. apply List.NoDup_remove_2 in H.
      intros Hin. apply H. apply in_or_app. left. exact Hin. }
    rewrite Hk, (dict_setitem_fresh _ _ _ Hk), IH.
    + rewrite <- app_assoc. reflexivity.
    + unfold dict_keys in *. rewrite map_app, <- app_assoc. exact H.
Qed.

(** X1. A table whose keys are all different resolves to its entries as
    they stand, in their order, and [make_dict] leaves the constant table
    and the diagnostics as they were. *)
Theorem make_dict_distinct_keys (items : list (string * value)) (self : transformer) :
  distinct (map fst items) = true ->
  make_dict items self = (VDict items, self).
Proof.
  intros H. unfold make_dict.
  rewrite (make_dict_loop_distinct items [] self H). reflexivity.
Qed.

Lemma make_dict_distinct_keys_witness :
  make_dict [("host", VInt 1); ("port", VInt 8)] init
  = (VDict [("host", VInt 1); ("port", VInt 8)], init).
Proof.
  exact (make_dict_distinct_keys [("host", VInt 1); ("port", VInt 8)] init eq_refl).
Defined.

(** The diagnostics of the loop of [make_dict] are those of the keys that
    [result] already has when they are assigned. *)
Lemma make_dict_loop_errors items : forall result self,
  constants (snd (make_dict_loop items result self)) = constants self /\
  errors (snd (make_dict_loop items result self)) =
  errors self ++ map msg_duplicate (repeated_keys (dict_keys result) (map fst items)).
Proof.
  induction items as [|[k v] items IH]; intros result self;
    cbn [make_dict_loop map fst repeated_keys snd].
  - split; [reflexivity | symmetry; apply app_nil_r].
  - rewrite <- dict_contains_existsb.
    destruct (IH (dict_setitem k v result)
                (if dict_contains k result
                 then errors_append (msg_duplicate k) self else self)) as [Hc He].
    rewrite Hc, He, dict_keys_setitem.
    destruct (dict_contains k result); cbn [errors_append constants errors map].
    + split; [reflexivity|]. rewrite <- app_assoc. reflexivity.
    + split; reflexivity.
Qed.

Lemma dict_setitem_length k v d :
  length (dict_setitem k v d) =
  if dict_contains k d then length d else S (length d).
Proof.
  induction d as [|[k' v'] d IH]; cbn [dict_setitem dict_contains length];
    [reflexivity|].
  destruct (String.eqb k k'); cbn [length]; [reflexivity|].
  rewrite IH. destruct (dict_contains k d); reflexivity.
Qed.

Lemma repeated_keys_length items : forall result,
  (length (repeated_keys (dict_keys result) (map fst items))
   + length (dict_update items result)
   = length result + length items)%nat.
Proof.
  unfold dict_update.
  induction items as [|[k v] items IH]; intros result;
    cbn [map fst repeated_keys fold_left snd length].
  - lia.
  - rewrite <- dict_contains_existsb.
    specialize (IH (dict_setitem k v result)).
    rewrite dict_keys_setitem, dict_setitem_length in IH.
    destruct (dict_contains k result); cbn [length]; lia.
Qed.

Lemma distinct_keys_setitem k v d :
  distinct (dict_keys d) = true -> distinct (dict_keys (dict_setitem k v d)) = true.
Proof.
  intros H. rewrite dict_keys_setitem.
  destruct (dict_contains k d) eqn:E; [exact H|].
  rewrite dict_contains_existsb in E. apply existsb_eqb_not_In in E.
  apply distinct_NoDup. apply distinct_NoDup in H.
  apply List.NoDup_app; [exact H | repeat constructor; intros [] |].
  intros x Hx [Hk|[]]. subst. auto.
Qed.

Lemma distinct_keys_update items : forall d,
  distinct (dict_keys d) = true -> distinct (dict_keys (dict_update items d)) = true.
Proof.
  unfold dict_update.
  induction items as [|[k v] items IH]; intros d H; cbn [fold_left fst snd];
    [exact H|].
  apply IH, distinct_keys_setitem, H.
Qed.

(** What [make_dict] returns and appends. *)
Lemma make_dict_reports_each_repeat_aux items self :
  exists result self1,
    make_dict items self = (VDict result, self1) /\
    constants self1 = constants self /\
    errors self1
    = errors self ++ map msg_duplicate (repeated_keys [] (map fst items)).
Proof.
  unfold make_dict.
  destruct (make_dict_loop_errors items [] self) as [Hc He].
  destruct (make_dict_loop items [] self) as [result self1].
  cbn [fst snd dict_keys map] in *. eauto.
Qed.

(** X2. Whatever its items, [make_dict] leaves the constant table alone and
    appends one diagnostic for each item whose key an earlier item has, in
    the order of the items; the table it returns has distinct keys, and the
    diagnostics appended are as many as the items that did not add a key. *)
Theorem make_dict_reports_each_repeat
    (items : list (string * value)) (self : transformer) :
  exists result self1,
    make_dict items self = (VDict result, self1) /\
    constants self1 = constants self /\
    errors self1
    = errors self ++ map msg_duplicate (repeated_keys [] (map fst items)) /\
    distinct (dict_keys result) = true /\
    (length (errors self1) + length result
     = length (errors self) + length items)%nat.
Proof.
  unfold make_dict.
  destruct (make_dict_loop_errors items [] self) as [Hc He].
  pose proof (make_dict_loop_result items [] self) as Hr.
  pose proof (repeated_keys_length items []) as Hl.
  destruct (make_dict_loop items [] self) as [result self1].
  cbn [fst snd dict_keys map length] in *. subst result.
  exists (dict_update items []), self1.
  split; [reflexivity|]. split; [exact Hc|]. split; [exact He|]. split.
  - apply distinct_keys_update. reflexivity.
  - rewrite He, length_app, length_map. lia.
Qed.

(** ** Unique keys *)

Lemma keys_unique_setitem k v d :
  keys_unique v = true ->
  keys_unique (VDict d) = true ->
  keys_unique (VDict (dict_setitem k v d)) = true.
Proof.
  intros Hv. cbn [keys_unique]. rewrite !andb_true_iff.
  intros [Hd Hf]. split; [apply (distinct_keys_setitem k v d Hd)|].
  clear Hd. induction d as [|[k' v'] d IH]; cbn [dict_setitem forallb] in *.
  - rewrite Hv. reflexivity.
  - apply andb_prop in Hf as [Hv' Hf].
    destruct (String.eqb k k'); cbn [forallb].
    + rewrite Hv, Hf. reflexivity.
    + rewrite Hv', (IH Hf). reflexivity.
Qed.

Lemma keys_unique_update items : forall d,
  forallb (fun '(_, v') => keys_unique v') items = true ->
  keys_unique (VDict d) = true ->
  keys_unique (VDict (dict_update items d)) = true.
Proof.
  unfold dict_update.
  induction items as [|[k v] items IH]; intros d Hi Hd; cbn [fold_left fst snd].
  - exact Hd.
  - cbn [forallb] in Hi. apply andb_prop in Hi as [Hv Hi].
    apply IH; [exact Hi|]. apply keys_unique_setitem; assumption.
Qed.

(** A resolved value has distinct keys in its tables if the values of the
    constant table have. *)
Lemma transform_value_keys_unique t : forall self v self1,
  transform_value t self = Some (v, self1) ->
  table_keys_unique (constants self) ->
  keys_unique v = true.
Proof.
  induction t as [tok|es IH|name] using tree_ind_entries;
    intros self v self1 H Hc.
  - cbn [transform_value] in H. destruct (number [tok]); inversion H. reflexivity.
  - rewrite transform_value_make_dict in H.
    destruct (transform_entries es self) as [[items self2]|] eqn:E; [|discriminate].
    assert (Hv : v = VDict (dict_update items [])).
    { rewrite <- (make_dict_value items self2).
      inversion H as [Hm]. rewrite Hm. reflexivity. }
    subst v. apply keys_unique_update; [|reflexivity]. clear H.
    revert self items self2 E Hc.
    induction IH as [|[k0 t0] es Ht _ IHes]; intros self items self2 E Hc;
      cbn [transform_entries] in E.
    + inversion E. reflexivity.
    + destruct (transform_value t0 self) as [[v' s1]|] eqn:Ev; [|discriminate].
      destruct (transform_entries es s1) as [[items' s2]|] eqn:Ee; [|discriminate].
      inversion E; subst items self2. cbn [snd] in Ht.
      destruct (transform_value_extends _ _ _ _ Ev) as [a (Hca & _ & _)].
      cbn [dict_item forallb]. rewrite (Ht _ _ _ Ev Hc).
      rewrite <- Hca in Hc. exact (IHes _ _ _ Ee Hc).
  - cbn [transform_value] in H. unfold use_const in H.
    destruct (constants self !! name) as [v0|] eqn:El; inversion H; subst.
    + eapply Hc; eauto.
    + reflexivity.
Qed.

Lemma transform_statements_keys_unique p : forall self items self1,
  transform_statements p self = Some (items, self1) ->
  table_keys_unique (constants self) ->
  forallb (fun '(_, v') => keys_unique v') (tuples items) = true /\
  table_keys_unique (constants self1).
Proof.
  induction p as [|s p IH]; intros self items self1 H Hc;
    cbn [transform_statements] in H.
  - inversion H; subst. split; [reflexivity | exact Hc].
  - destruct (transform_statement s self) as [[it s1]|] eqn:Es; [|discriminate].
    destruct (transform_statements p s1) as [[its s2]|] eqn:Ep; [|discriminate].
    inversion H; subst items self1.
    destruct (transform_statement_value _ _ _ _ Es) as (v & s' & a & Hv & _).
    pose proof (transform_value_keys_unique _ _ _ _ Hv Hc) as Hu.
    assert (Hc1 : table_keys_unique (constants s1)).
    { intros n v0 Hl.
      rewrite (transform_statement_lookup _ _ _ _ n Es), Hv in Hl.
      destruct (declares n s); [inversion Hl; subst; exact Hu | eauto]. }
    destruct (IH _ _ _ Ep Hc1) as [Hits Hc2]. split; [|exact Hc2].
    destruct s as [name t|key t]; cbn [transform_statement statement_value] in *;
      rewrite Hv in Es.
    + unfold declare_const in Es. inversion Es; subst it. exact Hits.
    + inversion Es; subst it. cbn [tuples dict_item forallb].
      rewrite Hu, Hits. reflexivity.
Qed.

(** X3. The table that the pass returns has no key twice in any of its
    tables, at any nesting level, and so has every value that the constant
    table holds at the end. *)
Theorem resolved_tables_have_unique_keys
    (p : program) (result : pydict) (final : transformer) :
  transform p init = Some (result, final) ->
  keys_unique (VDict result) = true /\
  forall name v, constants final !! name = Some v -> keys_unique v = true.
Proof.
  unfold transform. intros H.
  destruct (transform_statements p init) as [[items self1]|] eqn:E; [|discriminate].
  inversion H; subst result final.
  assert (Hinit : table_keys_unique (constants init)).
  { intros n v Hl. cbn [init constants] in Hl.
    rewrite lookup_empty in Hl. discriminate. }
  destruct (transform_statements_keys_unique _ _ _ _ E Hinit) as [Hits Hc].
  split; [|exact Hc].
  unfold start. rewrite start_loop_result.
  apply keys_unique_update; [exact Hits | reflexivity].
Qed.

Lemma resolved_tables_have_unique_keys_witness :
  keys_unique (VDict [("a", VDict [("k", VInt 2)]); ("b", VInt 0)]) = true.
Proof.
  exact (proj1 (resolved_tables_have_unique_keys
                  [S_dict_item "a" (T_make_dict [("k", T_number "0b1");
                                                 ("k", T_number "0b10")]);
                   S_dict_item "b" (T_number "0b0");
                   S_dict_item "a" (T_make_dict [("k", T_number "0b10")])]
                  [("a", VDict [("k", VInt 2)]); ("b", VInt 0)]
                  {| constants := ∅; errors := ["Duplicate key 'k' in table"] |}
                  eq_refl)).
Defined.

(** ** The constant table and the diagnostics of a whole program *)

Lemma transform_statement_declared s self item self1 n :
  transform_statement s self = Some (item, self1) ->
  constants self1 !! n = None <->
  constants self !! n = None /\ declares n s = false.
Proof.
  intros Es. rewrite (transform_statement_lookup _ _ _ _ n Es).
  destruct (transform_statement_value _ _ _ _ Es) as (v & s' & a & Hv & _).
  rewrite Hv. destruct (declares n s); split; try tauto; try discriminate.
  intros [_ H]. discriminate.
Qed.

Lemma transform_statements_declared p n : forall self items self1,
  transform_statements p self = Some (items, self1) ->
  constants self1 !! n = None <->
  constants self !! n = None /\ declared_in n p = false.
Proof.
  induction p as [|s p IH]; intros self items self1 H;
    cbn [transform_statements] in H.
  - inversion H; subst. cbn [declared_in existsb]. tauto.
  - destruct (transform_statement s self) as [[it s1]|] eqn:Es; [|discriminate].
    destruct (transform_statements p s1) as [[its s2]|] eqn:Ep; [|discriminate].
    inversion H; subst. cbn [declared_in existsb].
    rewrite (IH _ _ _ Ep), (transform_statement_declared _ _ _ _ n Es).
    rewrite orb_false_iff. unfold declared_in. tauto.
Qed.

(** X4. At the end of the pass the constant table holds exactly the names
    that the program declares: [=]-form entries and the values that are
    resolved never add a name to it or take one away. *)
Theorem constant_table_holds_declared_names
    (p : program) (items : list (option (string * value)))
    (final : transformer) (name : string) :
  transform_statements p init = Some (items, final) ->
  (is_Some (constants final !! name) <-> declared_in name p = true).
Proof.
  intros H. pose proof (transform_statements_declared p name _ _ _ H) as Hn.
  cbn [init constants] in Hn. rewrite lookup_empty in Hn.
  rewrite <- not_eq_None_Some, Hn.
  destruct (declared_in name p); split; intros Hx; try reflexivity.
  - intros [_ Hd]. discriminate.
  - exfalso. apply Hx. split; reflexivity.
  - discriminate.
Qed.

Lemma constant_table_holds_declared_names_witness :
  is_Some ((<["a" := VInt 1]> (∅ : gmap string value)) !! "a") <->
  declared_in "a" [S_declare_const "a" (T_number "0b1");
                   S_dict_item "b" (T_number "0b0")] = true.
Proof.
  exact (constant_table_holds_declared_names
           [S_declare_const "a" (T_number "0b1"); S_dict_item "b" (T_number "0b0")]
           [None; Some ("b", VInt 0)]
           {| constants := <["a" := VInt 1]> ∅; errors := [] |} "a" eq_refl).
Defined.

Lemma transform_statements_redefinitions p n : forall self items self1,
  transform_statements p self = Some (items, self1) ->
  count_occ String.string_dec (errors self1) (msg_redefined n) =
  (count_occ String.string_dec (errors self) (msg_redefined n) +
   match constants self !! n with
   | Some _ => declaration_count n p
   | None => Nat.pred (declaration_count n p)
   end)%nat.
Proof.
  unfold declaration_count.
  induction p as [|s p IH]; intros self items self1 H;
    cbn [transform_statements] in H.
  - inversion H; subst. cbn [List.filter length Nat.pred].
    destruct (constants self1 !! n); lia.
  - destruct (transform_statement s self) as [[it s1]|] eqn:Es; [|discriminate].
    destruct (transform_statements p s1) as [[its s2]|] eqn:Ep; [|discriminate].
    inversion H; subst.
    rewrite (IH _ _ _ Ep), (transform_statement_redefinitions _ _ _ _ n Es).
    rewrite (transform_statement_lookup _ _ _ _ n Es).
    destruct (transform_statement_value _ _ _ _ Es) as (v & s' & a & Hv & _).
    rewrite Hv. cbn [List.filter].
    destruct (declares n s); cbn [length Nat.pred];
      destruct (constants self !! n); lia.
Qed.

(** X5. For every program and every name, the pass appends one
    redefinition diagnostic for the name per declaration after its first:
    none if the name is declared once or never, [n - 1] if it is declared
    [n] times. *)
Theorem one_redefinition_per_further_declaration
    (p : program) (items : list (option (string * value)))
    (final : transformer) (name : string) :
  transform_statements p init = Some (items, final) ->
  count_occ String.string_dec (errors final) (msg_redefined name)
  = Nat.pred (declaration_count name p).
Proof.
  intros H. rewrite (transform_statements_redefinitions _ name _ _ _ H).
  cbn [init constants errors count_occ]. rewrite lookup_empty. reflexivity.
Qed.

Lemma one_redefinition_per_further_declaration_witness :
  count_occ String.string_dec
    ["Constant 'a' redefined"; "Constant 'a' redefined"] (msg_redefined "a")
  = 2%nat.
Proof.
  exact (one_redefinition_per_further_declaration
           [S_declare_const "a" (T_number "0b1");
            S_declare_const "a" (T_number "0b10");
            S_declare_const "a" (T_number "0b11")]
           [None; None; None]
           {| constants := <["a" := VInt 3]> (<["a" := VInt 2]>
                             (<["a" := VInt 1]> ∅));
              errors := ["Constant 'a' redefined"; "Constant 'a' redefined"] |}
           "a" eq_refl).
Defined.

Lemma msg_undefined_inj n n' : msg_undefined n = msg_undefined n' -> n = n'.
Proof.
  unfold msg_undefined. intros H. apply (inj (String.app _)) in H.
  eapply string_app_inv_tail, H.
Qed.

Lemma count_undefined_duplicates ks n :
  count_occ String.string_dec (map msg_duplicate ks) (msg_undefined n) = 0%nat.
Proof.
  induction ks as [|k ks IH]; [reflexivity|]. cbn [map].
  rewrite count_occ_cons_neq; [exact IH|].
  cbv [msg_undefined msg_duplicate String.append]. discriminate.
Qed.

Lemma make_dict_count_undefined items self n :
  count_occ String.string_dec (errors (snd (make_dict items self))) (msg_undefined n)
  = count_occ String.string_dec (errors self) (msg_undefined n).
Proof.
  unfold make_dict.
  destruct (make_dict_loop_errors items [] self) as [_ He].
  destruct (make_dict_loop items [] self) as [result self1]. cbn [snd] in *.
  rewrite He, count_occ_app, count_undefined_duplicates. lia.
Qed.

Lemma declare_const_count_undefined name v self n :
  count_occ String.string_dec
    (errors (snd (declare_const name v self))) (msg_undefined n)
  = count_occ String.string_dec (errors self) (msg_undefined n).
Proof.
  unfold declare_const. cbn [snd errors].
  destruct (constants self !! name); [|reflexivity].
  cbn [errors_append errors]. rewrite count_occ_snoc.
  destruct (String.string_dec (msg_redefined name) (msg_undefined n)) as [E|];
    [|lia].
  cbv [msg_undefined msg_redefined String.append] in E. discriminate.
Qed.

(** Resolving a value appends one undefined-constant diagnostic for [n] per
    reference to [n] in it, if the constant table lacks [n], and none if it
    has [n]. *)
Lemma transform_value_count_undefined n t : forall self v self1,
  transform_value t self = Some (v, self1) ->
  count_occ String.string_dec (errors self1) (msg_undefined n) =
  (count_occ String.string_dec (errors self) (msg_undefined n) +
   match constants self !! n with
   | None => count_refs n t
   | Some _ => 0
   end)%nat.
Proof.
  induction t as [tok|es IH|name] using tree_ind_entries; intros self v self1 H.
  - cbn [transform_value] in H. destruct (number [tok]); inversion H; subst.
    cbn [count_refs]. destruct (constants self1 !! n); lia.
  - rewrite transform_value_make_dict in H.
    destruct (transform_entries es self) as [[items self2]|] eqn:E; [|discriminate].
    assert (Hm : self1 = snd (make_dict items self2)).
    { inversion H as [Hm]. rewrite Hm. reflexivity. }
    subst self1. rewrite make_dict_count_undefined. clear H. cbn [count_refs].
    revert self items self2 E.
    induction IH as [|[k0 t0] es Ht _ IHes]; intros self items self2 E;
      cbn [transform_entries] in E.
    + inversion E; subst. cbn [map list_sum fold_right].
      destruct (constants self2 !! n); lia.
    + destruct (transform_value t0 self) as [[v' s1]|] eqn:Ev; [|discriminate].
      destruct (transform_entries es s1) as [[items' s2]|] eqn:Ee; [|discriminate].
      inversion E; subst items self2. cbn [snd] in Ht.
      destruct (transform_value_extends _ _ _ _ Ev) as [a (Hca & _ & _)].
      rewrite (IHes _ _ _ Ee), (Ht _ _ _ Ev), Hca.
      cbn [map list_sum fold_right].
      change (fold_right Nat.add 0%nat
                (map (fun '(_, t') => count_refs n t') es))
        with (list_sum (map (fun '(_, t') => count_refs n t') es)).
      destruct (constants self !! n); lia.
  - cbn [transform_value] in H. unfold use_const in H. cbn [count_refs].
    destruct (String.eqb name n) eqn:En.
    + apply String.eqb_eq in En. subst name.
      destruct (constants self !! n); inversion H; subst; [lia|].
      cbn [errors_append errors]. rewrite count_occ_snoc.
      destruct (String.string_dec (msg_undefined n) (msg_undefined n));
        [lia | congruence].
    + apply String.eqb_neq in En.
      destruct (constants self !! name); inversion H; subst.
      * destruct (constants self1 !! n); lia.
      * cbn [errors_append errors constants]. rewrite count_occ_snoc.
        destruct (String.string_dec (msg_undefined name) (msg_undefined n)) as [Em|].
        -- apply msg_undefined_inj in Em. congruence.
        -- destruct (constants self !! n); lia.
Qed.

Lemma transform_statements_count_undefined n p : forall self items self1,
  transform_statements p self = Some (items, self1) ->
  count_occ String.string_dec (errors self1) (msg_undefined n) =
  (count_occ String.string_dec (errors self) (msg_undefined n) +
   match constants self !! n with
   | None => forward_refs n p
   | Some _ => 0
   end)%nat.
Proof.
  induction p as [|s p IH]; intros self items self1 H;
    cbn [transform_statements] in H.
  - inversion H; subst. cbn [forward_refs]. destruct (constants self1 !! n); lia.
  - destruct (transform_statement s self) as [[it s1]|] eqn:Es; [|discriminate].
    destruct (transform_statements p s1) as [[its s2]|] eqn:Ep; [|discriminate].
    inversion H; subst. rewrite (IH _ _ _ Ep).
    rewrite (transform_statement_lookup _ _ _ _ n Es).
    assert (Hs : count_occ String.string_dec (errors s1) (msg_undefined n) =
                 (count_occ String.string_dec (errors self) (msg_undefined n) +
                  match constants self !! n with
                  | None => count_refs n (statement_value s)
                  | Some _ => 0
                  end)%nat).
    { destruct s as [name t|key t]; cbn [transform_statement statement_value] in *;
        destruct (transform_value t self) as [[v s']|] eqn:Ev; try discriminate;
        rewrite <- (transform_value_count_undefined n _ _ _ _ Ev).
      - assert (Hd : declare_const name v s' = (it, s1)) by congruence.
        pose proof (declare_const_count_undefined name v s' n) as Hu.
        rewrite Hd in Hu. exact Hu.
      - inversion Es; subst. reflexivity. }
    rewrite Hs. cbn [forward_refs].
    destruct (transform_statement_value _ _ _ _ Es) as (v & s' & a & Hv & _).
    rewrite Hv. destruct (declares n s), (constants self !! n); lia.
Qed.

(** X6. For every program and every name, the pass appends one
    undefined-constant diagnostic for the name per reference that comes
    before the end of the first declaration of the name, the references in
    the value of that declaration included, and none for the references
    after it. *)
Theorem one_undefined_per_forward_reference
    (p : program) (items : list (option (string * value)))
    (final : transformer) (name : string) :
  transform_statements p init = Some (items, final) ->
  count_occ String.string_dec (errors final) (msg_undefined name)
  = forward_refs name p.
Proof.
  intros H. rewrite (transform_statements_count_undefined name _ _ _ _ H).
  cbn [init constants errors count_occ]. rewrite lookup_empty. reflexivity.
Qed.

Lemma one_undefined_per_forward_reference_witness :
  count_occ String.string_dec
    ["Undefined constant 'a'"; "Undefined constant 'a'"] (msg_undefined "a")
  = 2%nat.
Proof.
  exact (one_undefined_per_forward_reference
           [S_dict_item "x" (T_make_dict [("y", T_use_const "a")]);
            S_declare_const "a" (T_use_const "a");
            S_dict_item "z" (T_use_const "a")]
           [Some ("x", VDict [("y", VNone)]); None; Some ("z", VNone)]
           {| constants := <["a" := VNone]> ∅;
              errors := ["Undefined constant 'a'"; "Undefined constant 'a'"] |}
           "a" eq_refl).
Defined.

(** X7. The diagnostics of a program start with the diagnostics of any of
    its prefixes, in the same order: the statements that follow append to
    them and never remove or reorder them.  The items handed to [start] are
    those of the prefix followed by those of the rest. *)
Theorem diagnostics_accumulate_in_order
    (p1 p2 : program) (items : list (option (string * value)))
    (final : transformer) :
  transform_statements (p1 ++ p2) init = Some (items, final) ->
  exists items1 self1 items2 added,
    transform_statements p1 init = Some (items1, self1) /\
    transform_statements p2 self1 = Some (items2, final) /\
    items = items1 ++ items2 /\
    errors final = errors self1 ++ added.
Proof.
  rewrite transform_statements_app. intros H.
  destruct (transform_statements p1 init) as [[items1 self1]|]; [|discriminate].
  destruct (transform_statements p2 self1) as [[items2 self2]|] eqn:E2;
    [|discriminate].
  inversion H; subst items final.
  destruct (transform_statements_errors _ _ _ _ E2) as [added Ha].
  exists items1, self1, items2, added. repeat split; assumption.
Qed.

Lemma diagnostics_accumulate_in_order_witness :
  exists items1 self1 items2 added,
    transform_statements [S_dict_item "x" (T_use_const "a")] init
    = Some (items1, self1) /\
    transform_statements [S_dict_item "y" (T_use_const "b")] self1
    = Some (items2,
            {| constants := ∅;
               errors := ["Undefined constant 'a'"; "Undefined constant 'b'"] |}) /\
    [Some ("x", VNone); Some ("y", VNone)] = items1 ++ items2 /\
    ["Undefined constant 'a'"; "Undefined constant 'b'"] = errors self1 ++ added.
Proof.
  exact (diagnostics_accumulate_in_order
           [S_dict_item "x" (T_use_const "a")] [S_dict_item "y" (T_use_const "b")]
           [Some ("x", VNone); Some ("y", VNone)]
           {| constants := ∅;
              errors := ["Undefined constant 'a'"; "Undefined constant 'b'"] |}
           eq_refl).
Defined.

(** ** Runs *)

Lemma successful_run_prints_resolved_table_witness :
  exists p result final,
    parse "a: 0b1; x = .(a)." = Some p /\
    transform p init = Some (result, final) /\
    errors final = [] /\
    unresolved_free (VDict result) = true /\
    "x = 1" +:+ newline = (to_toml result 0 +:+ newline) /\
    @nil stderr_line = [].
Proof.
  exact (successful_run_prints_resolved_table "a: 0b1; x = .(a)."
           {| exit_code := 0; stdout := "x = 1" +:+ newline; stderr := [] |}
           eq_refl eq_refl).
Defined.

(** X8. A run that [main] ends itself ends in one of two ways: with exit
    code 0, nothing on standard error and a text ended by a newline on
    standard output; or with exit code 1, nothing on standard output and at
    least one line on standard error.  So the exit code is 0 exactly when
    standard error is empty, and 1 exactly when standard output is. *)
Theorem main_exit_protocol (text : string) (pr : process) :
  main text = Some pr ->
  ((exit_code pr = 0 /\ stderr pr = [] /\
    exists body, stdout pr = body +:+ newline) \/
   (exit_code pr = 1 /\ stdout pr = "" /\ stderr pr <> [])) /\
  (exit_code pr = 0 <-> stderr pr = []) /\
  (exit_code pr = 1 <-> stdout pr = "").
Proof.
  assert (Hnl : forall body, body +:+ newline <> "").
  { intros [|c body] H; discriminate. }
  unfold main. intros H.
  destruct (parse text) as [p|].
  - destruct (transform p init) as [[result self]|]; [|discriminate].
    destruct (errors self) as [|e errs]; inversion H; subst pr;
      cbn [exit_code stderr stdout map].
    + split; [left; repeat split; eexists; reflexivity|].
      split; split; try reflexivity; try discriminate.
      intros Hs. exfalso. exact (Hnl _ Hs).
    + split; [right; repeat split; discriminate|].
      split; split; try reflexivity; discriminate.
  - inversion H; subst pr. cbn [exit_code stderr stdout].
    split; [right; repeat split; discriminate|].
    split; split; try reflexivity; discriminate.
Qed.

Lemma main_exit_protocol_witness :
  (1 = 0 <-> [ErrLine "Error: Undefined constant 'a'"] = []) /\
  (1 = 1 <-> "" = "").
Proof.
  exact (proj2 (main_exit_protocol "x = .(a)."
           {| exit_code := 1; stdout := "";
              stderr := [ErrLine "Error: Undefined constant 'a'"] |}
           eq_refl)).
Defined.

(** ** The serializer on joined tables *)

(** X10. The text of two tables put end to end, neither of them empty, is
    the text of the first, a newline and the text of the second, at any
    indentation; entries are rendered independently of their neighbours. *)
Theorem to_toml_app (a b : pydict) (indent : nat) :
  a <> [] -> b <> [] ->
  to_toml (a ++ b) indent = to_toml a indent +:+ newline +:+ to_toml b indent.
Proof.
  intros Ha Hb. unfold to_toml. rewrite toml_lines_app.
  destruct a as [|[ka va] a]; [congruence|].
  destruct b as [|[kb vb] b]; [congruence|].
  rewrite !toml_lines_cons.
  destruct (entry_lines_nonempty indent ka va) as (x & l & ->).
  destruct (entry_lines_nonempty indent kb vb) as (y & m & ->).
  change ((x :: l) ++ toml_lines a indent) with (x :: l ++ toml_lines a indent).
  change ((y :: m) ++ toml_lines b indent) with (y :: m ++ toml_lines b indent).
  apply concat_app.
Qed.

Lemma to_toml_app_witness :
  to_toml ([("db", VDict [("host", VInt 1)])] ++ [("port", VInt 8)]) 1
  = to_toml [("db", VDict [("host", VInt 1)])] 1 +:+ newline
    +:+ to_toml [("port", VInt 8)] 1.
Proof.
  apply (to_toml_app [("db", VDict [("host", VInt 1)])] [("port", VInt 8)] 1);
    discriminate.
Defined.

(** ** Commas *)

Lemma remove_commas_skip ts :
  remove_commas (match ts with COMMA :: r => r | _ => ts end) = remove_commas ts.
Proof. destruct ts as [|[] r]; reflexivity. Qed.

Lemma skip_remove_commas ts :
  match remove_commas ts with COMMA :: r => r | _ => remove_commas ts end
  = remove_commas ts.
Proof.
  induction ts as [|[] r IH]; cbn [remove_commas]; try reflexivity. exact IH.
Qed.

Lemma parse_value_remove_commas n : forall ts t rest,
  parse_value n ts = Some (t, rest) ->
  parse_value n (remove_commas ts) = Some (t, remove_commas rest).
Proof.
  induction n as [|fuel' IH]; intros ts t rest H; [discriminate|].
  assert (Hent : forall k ts es r,
    parse_entries fuel' k ts = Some (es, RSQB :: r) ->
    parse_entries fuel' k (remove_commas ts)
    = Some (es, RSQB :: remove_commas r)).
  { clear ts t rest H.
    induction k as [|k IHk]; intros ts es r H; [discriminate|].
    cbn [parse_entries] in H.
    destruct ts as [|[key|v| | | | | | | | | |] ts0];
      try (inversion H; subst; reflexivity); try discriminate.
    destruct ts0 as [|[key'|v| | | | | | | | | |] ts1];
      try (inversion H; subst; reflexivity); try discriminate.
    destruct (parse_value fuel' ts1) as [[v ts2]|] eqn:Ev; [|discriminate].
    destruct (parse_entries fuel' k
                (match ts2 with COMMA :: r => r | _ => ts2 end))
      as [[es' ts4]|] eqn:Ee; [|discriminate].
    inversion H; subst es ts4.
    cbn [remove_commas parse_entries].
    rewrite (IH _ _ _ Ev). cbn zeta. rewrite skip_remove_commas.
    rewrite <- (remove_commas_skip ts2), (IHk _ _ _ Ee). reflexivity. }
  destruct ts as [|[kw|v| | | | | | | | | |] ts0]; try discriminate.
  - destruct ts0 as [|[ | | | | | | | | | | |] ts1]; try discriminate.
    destruct ts1 as [|[ | | | | | | | | | | |] ts2]; try discriminate.
    rewrite parse_value_table in H.
    destruct (String.eqb kw "table") eqn:Ekw; [|discriminate].
    destruct (parse_entries fuel' fuel' ts2) as [[es r0]|] eqn:Ee; [|discriminate].
    destruct r0 as [|[ | | | | | | | | | | |] r1]; try discriminate.
    destruct r1 as [|[ | | | | | | | | | | |] r2]; try discriminate.
    inversion H; subst t rest.
    cbn [remove_commas]. rewrite parse_value_table, Ekw, (Hent _ _ _ _ Ee).
    reflexivity.
  - cbn [parse_value] in H. inversion H; subst. reflexivity.
  - destruct ts0 as [|[name| | | | | | | | | | |] ts1]; try discriminate.
    destruct ts1 as [|[ | | | | | | | | | | |] ts2]; try discriminate.
    cbn [parse_value] in H. inversion H; subst. reflexivity.
Qed.

Lemma parse_statements_remove_commas n : forall ts p,
  parse_statements n ts = Some p ->
  parse_statements n (remove_commas ts) = Some p.
Proof.
  induction n as [|fuel' IH]; intros ts p H; [discriminate|].
  cbn [parse_statements] in H.
  destruct ts as [|[name|v| | | | | | | | | |] ts0]; try discriminate.
  - exact H.
  - destruct ts0 as [|[ | | | | | | | | | | |] ts1]; try discriminate;
      destruct (parse_value fuel' ts1) as [[v ts2]|] eqn:Ev; try discriminate;
      pose proof (parse_value_remove_commas _ _ _ _ Ev) as Hv.
    + destruct ts2 as [|[ | | | | | | | | | | |] ts3]; try discriminate.
      destruct (parse_statements fuel' ts3) as [p'|] eqn:Ep; [|discriminate].
      cbn [remove_commas parse_statements] in *.
      rewrite Hv, (IH _ _ Ep). exact H.
    + destruct (parse_statements fuel'
                  (match ts2 with COMMA :: r => r | _ => ts2 end))
        as [p'|] eqn:Ep; [|discriminate].
      cbn [remove_commas parse_statements].
      rewrite Hv. cbn zeta. rewrite skip_remove_commas.
      rewrite <- (remove_commas_skip ts2), (IH _ _ Ep). exact H.
Qed.

(** X11. The comma after an entry carries no meaning: a sequence of
    terminals that is parsed is still parsed, to the same tree, when all its
    commas are taken out. *)
Theorem commas_are_optional (ts : list token) (p : program) :
  parse_statements (S (length ts)) ts = Some p ->
  parse_statements (S (length (remove_commas ts))) (remove_commas ts) = Some p.
Proof.
  intros H. apply (parse_fuel_enough (S (length ts))).
  apply parse_statements_remove_commas, H.
Qed.

Lemma commas_are_optional_witness :
  parse_statements 16
    [IDENT "t"; EQUAL; IDENT "table"; LPAR; LSQB;
     IDENT "a"; EQUAL; BIN_NUMBER "0b1"; IDENT "b"; EQUAL; CONST_OPEN;
     IDENT "c"; CONST_CLOSE; RSQB; RPAR]
  = Some [S_dict_item "t" (T_make_dict [("a", T_number "0b1");
                                         ("b", T_use_const "c")])].
Proof.
  exact (commas_are_optional
           [IDENT "t"; EQUAL; IDENT "table"; LPAR; LSQB;
            IDENT "a"; EQUAL; BIN_NUMBER "0b1"; COMMA; IDENT "b"; EQUAL;
            CONST_OPEN; IDENT "c"; CONST_CLOSE; COMMA; RSQB; RPAR; COMMA]
           [S_dict_item "t" (T_make_dict [("a", T_number "0b1");
                                          ("b", T_use_const "c")])]
           eq_refl).
Defined.

(** ** Blanks and comments *)

Lemma lex_from_skip_prefix pre s :
  lex_from (String.length pre) (pre +:+ s) = lex_from 0 s.
Proof.
  induction pre as [|c pre IH]; [reflexivity|].
  change (lex_from (String.length pre) (pre +:+ s) = lex_from 0 s). exact IH.
Qed.

Lemma lex_blank c s : is_ws c = true -> lex (String c s) = lex s.
Proof.
  intros H. unfold lex. cbn [lex_from lexeme_at]. rewrite H. reflexivity.
Qed.

Lemma lex_blanks w s : all_ws w = true -> lex (w +:+ s) = lex s.
Proof.
  induction w as [|c w IH]; [reflexivity|]. cbn [all_ws].
  intros H. apply andb_prop in H as [Hc Hw].
  change (lex (String c (w +:+ s)) = lex s).
  rewrite (lex_blank _ _ Hc). exact (IH Hw).
Qed.

Lemma comment_close_first body s :
  no_rsqb body = true ->
  comment_close (body +:+ "]]" +:+ s) = Some (String.length body + 2)%nat.
Proof.
  induction body as [|c body IH]; [reflexivity|]. cbn [no_rsqb].
  intros H. apply andb_prop in H as [Hc Hb]. apply negb_true_iff in Hc.
  change (comment_close (String c (body +:+ "]]" +:+ s))
          = Some (S (String.length body + 2))).
  specialize (IH Hb). cbn [comment_close].
  destruct (body +:+ "]]" +:+ s) as [|c' r] eqn:E.
  - destruct body; discriminate.
  - rewrite Hc. cbn [andb]. rewrite IH. reflexivity.
Qed.

Lemma comment_close_none body :
  no_rsqb body = true -> comment_close body = None.
Proof.
  induction body as [|c body IH]; [reflexivity|]. cbn [no_rsqb comment_close].
  intros H. apply andb_prop in H as [Hc Hb]. apply negb_true_iff in Hc.
  destruct body as [|c' r]; [reflexivity|].
  rewrite Hc. cbn [andb]. rewrite (IH Hb). reflexivity.
Qed.

Lemma lex_comment body s :
  no_rsqb body = true -> lex ("--[[" +:+ body +:+ "]]" +:+ s) = lex s.
Proof.
  intros H. unfold lex.
  change ("--[[" +:+ body +:+ "]]" +:+ s)
    with (String "-" (String "-" (String "[" (String "["
            (body +:+ "]]" +:+ s))))).
  cbn [lex_from lexeme_at].
  change (is_ws "-") with false. change (is_lower "-") with false.
  cbn [Ascii.eqb Bool.eqb]. cbn iota.
  rewrite (comment_close_first body s H).
  cbn [Nat.add Nat.pred lex_from].
  rewrite <- (lex_from_skip_prefix (body +:+ "]]") s).
  rewrite string_length_app, string_app_assoc. reflexivity.
Qed.

Lemma lex_unterminated_comment body :
  no_rsqb body = true -> lex ("--[[" +:+ body) = None.
Proof.
  intros H. unfold lex.
  change ("--[[" +:+ body)
    with (String "-" (String "-" (String "[" (String "[" body)))).
  cbn [lex_from lexeme_at].
  change (is_ws "-") with false. change (is_lower "-") with false.
  cbn [Ascii.eqb Bool.eqb]. cbn iota.
  rewrite (comment_close_none body H). reflexivity.
Qed.

Lemma main_of_lex text1 text2 : lex text1 = lex text2 -> main text1 = main text2.
Proof. intros H. unfold main, parse. rewrite H. reflexivity. Qed.

(** X12. Blanks and a comment before a text change nothing in the run:
    the comment ends at the first ["]]"] and is skipped with whatever it
    holds.  A comment that is opened and never closed is a syntax error. *)
Theorem blanks_and_comments_are_skipped (w body s : string) :
  all_ws w = true ->
  no_rsqb body = true ->
  main (w +:+ s) = main s /\
  main ("--[[" +:+ body +:+ "]]" +:+ s) = main s /\
  main ("--[[" +:+ body)
  = Some {| exit_code := 1; stdout := ""; stderr := [SyntaxErrorLine] |}.
Proof.
  intros Hw Hb. split; [|split].
  - apply main_of_lex, lex_blanks, Hw.
  - apply main_of_lex, lex_comment, Hb.
  - unfold main, parse. rewrite (lex_unterminated_comment body Hb). reflexivity.
Qed.

Lemma blanks_and_comments_are_skipped_witness :
  main ("--[[" +:+ " x = [0b1 --[[ " +:+ "]]" +:+ "]] y = 0b1")
  = main "]] y = 0b1".
Proof.
  exact (proj1 (proj2 (blanks_and_comments_are_skipped
                         "  " " x = [0b1 --[[ " "]] y = 0b1" eq_refl eq_refl))).
Defined.

(** ** Programs without diagnostics *)

Lemma app_eq_self {A} (l a : list A) : l ++ a = l <-> a = [].
Proof.
  split; intros H; [|subst; apply app_nil_r].
  apply (f_equal (@length A)) in H. rewrite length_app in H.
  destruct a; [reflexivity | cbn [length] in H; lia].
Qed.

Lemma repeated_keys_nil ks : forall seen,
  repeated_keys seen ks = [] <->
  distinct ks = true /\ forall k, In k ks -> ~ In k seen.
Proof.
  induction ks as [|k r IH]; intros seen; cbn [repeated_keys distinct].
  - split; [intros _; split; [reflexivity | intros k []] | reflexivity].
  - destruct (existsb (String.eqb k) seen) eqn:E.
    + apply existsb_eqb_In in E. split; [discriminate|].
      intros [_ H]. exfalso. apply (H k); [left; reflexivity | exact E].
    + apply existsb_eqb_not_In in E. rewrite IH, andb_true_iff, negb_true_iff.
      rewrite existsb_eqb_not_In. split.
      * intros [Hd Hs]. split; [split; [|exact Hd]|].
        -- intros Hin. apply (Hs k Hin). apply in_or_app. right. left. reflexivity.
        -- intros x [<-|Hx]; [exact E|].
           intros Hin. apply (Hs x Hx). apply in_or_app. left. exact Hin.
      * intros [[Hk Hd] Hs]. split; [exact Hd|].
        intros x Hx Hin. apply in_app_or in Hin as [Hin|[<-|[]]].
        -- apply (Hs x); [right; exact Hx | exact Hin].
        -- exact (Hk Hx).
Qed.

Lemma transform_entries_fst es : forall self items self1,
  transform_entries es self = Some (items, self1) ->
  map fst items = map fst es.
Proof.
  induction es as [|[k t] es IH]; intros self items self1 E;
    cbn [transform_entries] in E.
  - inversion E. reflexivity.
  - destruct (transform_value t self) as [[v s1]|]; [|discriminate].
    destruct (transform_entries es s1) as [[items' s2]|] eqn:Ee; [|discriminate].
    inversion E; subst. cbn [map fst dict_item]. f_equal. eapply IH, Ee.
Qed.

(** A value is resolved without a diagnostic exactly when its references
    are to names of the constant table and its tables repeat no key. *)
Lemma transform_value_clean declared t : forall self v self1,
  transform_value t self = Some (v, self1) ->
  (forall n, existsb (String.eqb n) declared = true <-> constants self !! n <> None) ->
  (errors self1 = errors self <-> value_clean declared t = true).
Proof.
  induction t as [tok|es IH|name] using tree_ind_entries;
    intros self v self1 H Hd.
  - cbn [transform_value] in H. destruct (number [tok]); inversion H; subst.
    cbn [value_clean]. tauto.
  - rewrite transform_value_make_dict in H.
    destruct (transform_entries es self) as [[items self2]|] eqn:E; [|discriminate].
    destruct (make_dict_reports_each_repeat_aux items self2)
      as (result & s1 & Hm & _ & He).
    rewrite Hm in H. inversion H; subst v s1. clear H Hm.
    rewrite (transform_entries_fst _ _ _ _ E) in He.
    destruct (transform_entries_extends _ _ _ _ E) as [a (_ & Ha & _)].
    assert (Hes : errors self2 = errors self <->
                  forallb (fun '(_, t') => value_clean declared t') es = true).
    { clear He Ha a result self1. revert self items self2 E Hd.
      induction IH as [|[k0 t0] es Ht _ IHes]; intros self items self2 E Hd;
        cbn [transform_entries] in E.
      - inversion E; subst. cbn [forallb]. tauto.
      - destruct (transform_value t0 self) as [[v' s1]|] eqn:Ev; [|discriminate].
        destruct (transform_entries es s1) as [[items' s2]|] eqn:Ee; [|discriminate].
        inversion E; subst items self2. cbn [snd] in Ht.
        destruct (transform_value_extends _ _ _ _ Ev) as [a1 (Hc1 & Ha1 & _)].
        destruct (transform_entries_extends _ _ _ _ Ee) as [a2 (_ & Ha2 & _)].
        assert (Hd1 : forall n, existsb (String.eqb n) declared = true
                                <-> constants s1 !! n <> None).
        { intros n. rewrite Hc1. apply Hd. }
        specialize (Ht _ _ _ Ev Hd). specialize (IHes _ _ _ Ee Hd1).
        cbn [forallb]. rewrite andb_true_iff. split.
        + intros H. assert (Hnil : a1 = [] /\ a2 = []).
          { rewrite Ha2, Ha1, <- app_assoc in H.
            apply app_eq_self, app_eq_nil in H. exact H. }
          destruct Hnil as [-> ->]. rewrite app_nil_r in Ha1, Ha2.
          split; [apply Ht, Ha1 | apply IHes, Ha2].
        + intros [H1 H2]. apply Ht in H1. apply IHes in H2. congruence. }
    cbn [value_clean]. rewrite andb_true_iff.
    pose proof (repeated_keys_nil (map fst es) []) as Hr.
    split.
    + intros H. rewrite He, Ha, <- app_assoc in H.
      apply app_eq_self, app_eq_nil in H. destruct H as [-> Hrep].
      apply map_eq_nil in Hrep. rewrite app_nil_r in Ha.
      split; [apply Hr, Hrep | apply Hes, Ha].
    + intros [Hdis Hfb]. apply Hes in Hfb.
      rewrite He, (proj2 Hr), Hfb; [apply app_nil_r|].
      split; [exact Hdis | intros k _ []].
  - cbn [transform_value] in H. unfold use_const in H. cbn [value_clean].
    rewrite Hd.
    destruct (constants self !! name); inversion H; subst.
    + split; [discriminate | reflexivity].
    + cbn [errors_append errors]. rewrite app_eq_self.
      split; [discriminate | congruence].
Qed.

Lemma transform_statements_clean p : forall declared self items self1,
  transform_statements p self = Some (items, self1) ->
  (forall n, existsb (String.eqb n) declared = true <-> constants self !! n <> None) ->
  (errors self1 = errors self <-> program_clean declared p = true).
Proof.
  induction p as [|s p IH]; intros declared self items self1 H Hd;
    cbn [transform_statements] in H.
  - inversion H; subst. cbn [program_clean]. tauto.
  - destruct (transform_statement s self) as [[it s1]|] eqn:Es; [|discriminate].
    destruct (transform_statements p s1) as [[its s2]|] eqn:Ep; [|discriminate].
    inversion H; subst items self1. clear H.
    destruct (transform_statements_errors _ _ _ _ Ep) as [c Hc].
    destruct s as [name t|key t]; cbn [transform_statement program_clean] in *;
      destruct (transform_value t self) as [[v s']|] eqn:Ev; try discriminate;
      destruct (transform_value_extends _ _ _ _ Ev) as [a (Hcs & Ha & _)];
      pose proof (transform_value_clean declared _ _ _ _ Ev Hd) as Hv.
    + assert (Hdc : declare_const name v s' = (it, s1)) by congruence.
      assert (Hb : errors s1 = errors s' ++
                     match constants self !! name with
                     | Some _ => [msg_redefined name]
                     | None => []
                     end).
      { unfold declare_const in Hdc. inversion Hdc as [[Hi Hs]]. cbn [errors].
        rewrite <- Hcs. destruct (constants s' !! name); cbn [errors_append errors];
          [reflexivity | symmetry; apply app_nil_r]. }
      assert (Hd1 : forall n, existsb (String.eqb n) (name :: declared) = true
                              <-> constants s1 !! n <> None).
      { intros n. pose proof (declare_const_lookup name v s' n) as Hl.
        rewrite Hdc in Hl. cbn [snd] in Hl. rewrite Hl, Hcs.
        cbn [existsb]. rewrite orb_true_iff, Hd, String.eqb_sym.
        destruct (String.eqb name n); split; try tauto; try discriminate.
        intros [H|H]; [discriminate | exact H]. }
      specialize (IH _ _ _ _ Ep Hd1).
      rewrite !andb_true_iff, negb_true_iff. split.
      * intros H. rewrite Hc, Hb, Ha, <- !app_assoc in H.
        apply app_eq_self, app_eq_nil in H. destruct H as [-> H].
        apply app_eq_nil in H as [Hred ->].
        rewrite app_nil_r in Ha, Hc. split; [split|].
        -- apply Hv, Ha.
        -- destruct (existsb (String.eqb name) declared) eqn:Ex; [|reflexivity].
           apply Hd in Ex. destruct (constants self !! name);
             [discriminate | congruence].
        -- apply IH, Hc.
      * intros [[Hvc Hex] Hpc]. apply Hv in Hvc. apply IH in Hpc.
        rewrite Hpc, Hb, Hvc.
        destruct (constants self !! name) eqn:El; [|apply app_nil_r].
        assert (Hx : existsb (String.eqb name) declared = true).
        { apply Hd. rewrite El. discriminate. }
        congruence.
    + inversion Es; subst it s1.
      assert (Hd1 : forall n, existsb (String.eqb n) declared = true
                              <-> constants s' !! n <> None).
      { intros n. rewrite Hcs. apply Hd. }
      specialize (IH _ _ _ _ Ep Hd1).
      rewrite andb_true_iff. split.
      * intros H. rewrite Hc, Ha, <- app_assoc in H.
        apply app_eq_self, app_eq_nil in H. destruct H as [-> ->].
        rewrite app_nil_r in Ha, Hc. split; [apply Hv, Ha | apply IH, Hc].
      * intros [Hvc Hpc]. apply Hv in Hvc. apply IH in Hpc. congruence.
Qed.

(** X13. A pass that returns has appended no diagnostic exactly when the
    program is clean: every reference is to a constant declared by an
    earlier statement, no name is declared twice, and no table written with
    [table([...])] repeats a key; repeated keys at the top level do not
    count.  So a run of a parsed text that [main] ends itself ends with exit
    code 0 exactly when its program is clean. *)
Theorem clean_iff_no_diagnostics
    (p : program) (result : pydict) (final : transformer) :
  transform p init = Some (result, final) ->
  (errors final = [] <-> program_clean [] p = true) /\
  forall text pr,
    parse text = Some p -> main text = Some pr ->
    (exit_code pr = 0 <-> program_clean [] p = true).
Proof.
  intros Ht.
  assert (Hclean : errors final = [] <-> program_clean [] p = true).
  { unfold transform in Ht.
    destruct (transform_statements p init) as [[items self1]|] eqn:E;
      [|discriminate].
    inversion Ht; subst result final.
    assert (Hinit : forall n, existsb (String.eqb n) [] = true
                              <-> constants init !! n <> None).
    { intros n. cbn [existsb init constants]. rewrite lookup_empty.
      split; [discriminate | congruence]. }
    rewrite <- (transform_statements_clean _ _ _ _ _ E Hinit). reflexivity. }
  split; [exact Hclean|].
  intros text pr Hp Hm. unfold main in Hm. rewrite Hp, Ht in Hm.
  rewrite <- Hclean.
  destruct (errors final) as [|e errs]; inversion Hm; subst pr;
    cbn [exit_code]; split; try reflexivity; discriminate.
Qed.

Lemma clean_iff_no_diagnostics_witness :
  (@nil string = [] <->
   program_clean []
     [S_declare_const "a" (T_number "0b1");
      S_dict_item "t" (T_make_dict [("x", T_use_const "a"); ("y", T_number "0b0")]);
      S_dict_item "t" (T_number "0b1")] = true).
Proof.
  exact (proj1 (clean_iff_no_diagnostics
           [S_declare_const "a" (T_number "0b1");
            S_dict_item "t" (T_make_dict [("x", T_use_const "a");
                                          ("y", T_number "0b0")]);
            S_dict_item "t" (T_number "0b1")]
           [("t", VInt 1)]
           {| constants := <["a" := VInt 1]> ∅; errors := [] |}
           eq_refl)).
Defined.

(** ** Lookups in the table of a program *)

Lemma tuples_app a b : tuples (a ++ b) = tuples a ++ tuples b.
Proof.
  induction a as [|[kv|] a IH]; cbn [app tuples]; [reflexivity| |exact IH].
  rewrite IH. reflexivity.
Qed.

Lemma last_value_absent k items :
  ~ In k (map fst items) -> last_value k items = None.
Proof.
  induction items as [|[k' v] items IH]; cbn [map fst In last_value];
    [reflexivity|].
  intros H. rewrite IH by tauto.
  destruct (String.eqb k k') eqn:E; [|reflexivity].
  apply String.eqb_eq in E. subst. tauto.
Qed.

Lemma last_value_last k v l1 l2 :
  ~ In k (map fst l2) -> last_value k (l1 ++ (k, v) :: l2) = Some v.
Proof.
  intros H. induction l1 as [|[k' v'] l1 IH]; cbn [app last_value].
  - rewrite (last_value_absent _ _ H), String.eqb_refl. reflexivity.
  - rewrite IH. reflexivity.
Qed.

(** X14. In the table that the pass returns, the value under a key is the
    one that the last top-level entry with that key was resolved to,
    whatever earlier entries with the key held, and a key that no top-level
    entry has is not in the table. *)
Theorem top_level_last_entry_wins
    (p : program) (result : pydict) (final : transformer) (k : string) :
  transform p init = Some (result, final) ->
  (~ In k (top_level_keys p) -> dict_getitem k result = None) /\
  (forall p1 t p2,
     p = p1 ++ S_dict_item k t :: p2 ->
     ~ In k (top_level_keys p2) ->
     exists items1 self1 v self2,
       transform_statements p1 init = Some (items1, self1) /\
       transform_value t self1 = Some (v, self2) /\
       dict_getitem k result = Some v).
Proof.
  unfold transform. intros H.
  destruct (transform_statements p init) as [[items self]|] eqn:E; [|discriminate].
  inversion H; subst result final. clear H.
  rewrite (proj1 (start_repeated_key items k)). split.
  - intros Hk. apply last_value_absent.
    rewrite (transform_statements_top_level_keys _ _ _ _ E). exact Hk.
  - intros p1 t p2 -> Hk. rewrite transform_statements_app in E.
    destruct (transform_statements p1 init) as [[items1 self1]|]; [|discriminate].
    cbn [transform_statements transform_statement] in E.
    destruct (transform_value t self1) as [[v self2]|] eqn:Ev; [|discriminate].
    destruct (transform_statements p2 self2) as [[items2 s2]|] eqn:E2;
      [|discriminate].
    inversion E; subst items self.
    exists items1, self1, v, self2. split; [reflexivity|]. split; [exact Ev|].
    rewrite tuples_app. cbn [tuples dict_item]. apply last_value_last.
    rewrite (transform_statements_top_level_keys _ _ _ _ E2). exact Hk.
Qed.

Lemma top_level_last_entry_wins_witness :
  dict_getitem "z" [("a", VInt 2); ("b", VInt 0)] = None /\
  dict_getitem "a" [("a", VInt 2); ("b", VInt 0)] = Some (VInt 2).
Proof.
  pose proof (top_level_last_entry_wins
                [S_dict_item "a" (T_number "0b1"); S_dict_item "b" (T_number "0b0");
                 S_dict_item "a" (T_number "0b10")]
                [("a", VInt 2); ("b", VInt 0)] init "z" eq_refl) as [Hz _].
  pose proof (top_level_last_entry_wins
                [S_dict_item "a" (T_number "0b1"); S_dict_item "b" (T_number "0b0");
                 S_dict_item "a" (T_number "0b10")]
                [("a", VInt 2); ("b", VInt 0)] init "a" eq_refl) as [_ Ha].
  split.
  - apply Hz. cbn. intros [H|[H|[H|[]]]]; discriminate.
  - destruct (Ha [S_dict_item "a" (T_number "0b1"); S_dict_item "b" (T_number "0b0")]
                 (T_number "0b10") [] eq_refl (fun H => H))
      as (items1 & self1 & v & self2 & H1 & H2 & H3).
    cbn in H1. inversion H1; subst. cbn in H2. inversion H2; subst. exact H3.
Defined.

(** ** One entry, from the text to the output *)

Lemma is_lower_not_ws c : is_lower c = true -> is_ws c = false.
Proof.
  destruct c as [[] [] [] [] [] [] [] []]; try reflexivity; discriminate.
Qed.

Lemma take_while_lower k rest :
  all_lower k = true ->
  match rest with
  | EmptyString => true
  | String c _ => negb (is_lower c)
  end = true ->
  take_while is_lower (k +:+ rest) = k.
Proof.
  intros Hk Hr. induction k as [|c k IH].
  - destruct rest as [|c r]; [reflexivity|].
    change (take_while is_lower (String c r) = EmptyString).
    cbn [take_while]. apply negb_true_iff in Hr. rewrite Hr. reflexivity.
  - cbn [all_lower] in Hk. apply andb_prop in Hk as [Hc Hk].
    change (take_while is_lower (String c (k +:+ rest)) = String c k).
    cbn [take_while]. rewrite Hc, (IH Hk). reflexivity.
Qed.

Lemma lex_ident k rest :
  all_lower k = true -> k <> EmptyString ->
  match rest with
  | EmptyString => true
  | String c _ => negb (is_lower c)
  end = true ->
  lex (k +:+ rest) =
  match lex rest with
  | Some ts => Some (IDENT k :: ts)
  | None => None
  end.
Proof.
  intros Hk Hne Hr. pose proof (take_while_lower k rest Hk Hr) as Ht.
  destruct k as [|c k]; [congruence|].
  cbn [all_lower] in Hk. apply andb_prop in Hk as [Hc _].
  unfold lex.
  change (String c k +:+ rest) with (String c (k +:+ rest)) in *.
  cbn [lex_from lexeme_at]. rewrite (is_lower_not_ws c Hc), Hc, Ht.
  cbn [String.length Nat.pred]. rewrite lex_from_skip_prefix. reflexivity.
Qed.

(** X15. A text made of one entry, a key of lowercase letters, [=] and a
    binary literal whose value is within the limit of the decimal conversion
    (at most 4300 decimal digits), runs to exit code 0 and prints the key,
    [=] and the value of the literal in decimal. *)
Theorem single_entry_end_to_end (k tok : string) :
  all_lower k = true -> k <> EmptyString ->
  matches_BIN_NUMBER tok = true ->
  printable (base2_value (literal_digits tok)) = true ->
  main (k +:+ " = " +:+ tok)
  = Some {| exit_code := 0;
            stdout := k +:+ " = " +:+ str_int (base2_value (literal_digits tok))
                      +:+ newline;
            stderr := [] |}.
Proof.
  intros Hk Hne Htok _.
  assert (Hlex : lex (k +:+ " = " +:+ tok) = Some [IDENT k; EQUAL; BIN_NUMBER tok]).
  { rewrite (lex_ident k (" = " +:+ tok) Hk Hne eq_refl).
    change (" = " +:+ tok) with (String " " (String "=" (String " " tok))).
    rewrite (lex_blank " " _ eq_refl).
    assert (He : forall s, lex (String "=" s)
                           = match lex s with
                             | Some ts => Some (EQUAL :: ts)
                             | None => None
                             end) by reflexivity.
    rewrite He, (lex_blank " " _ eq_refl), (lex_literal tok Htok). reflexivity. }
  unfold main, parse. rewrite Hlex.
  cbn [length parse_statements parse_value]. unfold transform.
  cbn [transform_statements transform_statement transform_value number].
  rewrite (int_base2_literal tok Htok).
  unfold start. cbn [init errors start_loop dict_item dict_setitem].
  unfold to_toml. cbn [toml_lines flat_map entry_lines app String.concat string_repeat].
  rewrite !string_app_assoc. reflexivity.
Qed.

Lemma single_entry_end_to_end_witness :
  main "table = 0B0110"
  = Some {| exit_code := 0; stdout := "table = 6" +:+ newline; stderr := [] |}.
Proof.
  apply (single_entry_end_to_end "table" "0B0110");
    [reflexivity | discriminate | reflexivity | reflexivity].
Defined.
